(** * Stream.h: the timed read, search and parse engine of arduino::Stream

    A shallow embedding of [src/hostapi/Stream.h].  The byte source that the
    class borrows ([read], [peek], [available]) and the host clock ([millis])
    are the only parts that the header leaves abstract; they are modelled in
    the first section.  Every other definition follows one member function
    of [class Stream], statement by statement. *)

From Stdlib Require Import ZArith Ascii String List Bool Lia.
From Stdlib Require Import Floats.SpecFloat.
Import ListNotations.

Local Open Scope Z_scope.

(** ** Characters and machine integers *)

(** The [int] that [read()] and [peek()] hand back for a byte: 0..255. *)
Definition int_of_char (c : ascii) : Z := Z.of_N (N_of_ascii c).

(** The cast [(char)c] of an [int]: the low eight bits. *)
Definition char_of_int (c : Z) : ascii := ascii_of_N (Z.to_N (c mod 256)).

(** A character literal used as an [int], as in [c == '-']. *)
Definition ch (a : ascii) : Z := int_of_char a.
Arguments ch a%_char.

(** [unsigned long]: 32 bits, as on the boards of the Arduino core;
    arithmetic modulo 2^32. *)
Definition ulong (z : Z) : Z := z mod 2 ^ 32.

(** [long]: 32 bits, two's complement; a result out of range wraps. *)
Definition long (z : Z) : Z := (z + 2 ^ 31) mod 2 ^ 32 - 2 ^ 31.

(** [c >= '0' && c <= '9'] *)
Definition isdigit (c : Z) : bool := (ch "0" <=? c) && (c <=? ch "9").

Definition PARSE_TIMEOUT : Z := 1000.

Inductive LookaheadMode := SKIP_ALL | SKIP_NONE | SKIP_WHITESPACE.

Definition NO_IGNORE_CHAR : ascii := "001"%char.

(** ** The stream object *)

(** The two fields of [class Stream], together with what stands behind its
    pure virtual members: the bytes that the source holds, oldest first, as
    the in-memory stream of the test suite ([mock << "This is a test
    string"]), and the host's millisecond counter.  The bytes in [rx] are the
    ones delivered before the deadline: each is there when it is asked for,
    and a source that is empty stays empty while it is polled. *)
Record Stream := mkStream {
  rx : list ascii;
  clock : Z;
  _timeout : Z;
  _startMillis : Z
}.

(** [Stream() : _timeout(PARSE_TIMEOUT)], on a source holding [bytes]. *)
Definition Stream_on (bytes : list ascii) : Stream :=
  {| rx := bytes; clock := 0; _timeout := PARSE_TIMEOUT; _startMillis := 0 |}.

(** Member functions run in a state monad over the stream object.  A loop of
    the source is a recursion on a budget of iterations; [spin] is the
    outcome of a budget that ran out. *)
Definition M (A : Type) : Type := Stream -> option (A * Stream).

Definition ret {A} (a : A) : M A := fun s => Some (a, s).

Definition bind {A B} (m : M A) (k : A -> M B) : M B :=
  fun s => match m s with
           | Some (a, s') => k a s'
           | None => None
           end.

Definition spin {A} : M A := fun _ => None.

Definition gets {A} (f : Stream -> A) : M A := fun s => Some (f s, s).

Notation "x <- m ;; k" := (bind m (fun x => k))
  (at level 61, m at next level, right associativity).
Notation "m ;;; k" := (bind m (fun _ => k))
  (at level 61, right associativity).

(** ** The byte source and the clock *)

(** Modelled from the spec: [read()] is pure virtual in the header.  Section 6
    of the specification: the next byte value, or "none" if currently empty
    (consumes).  "None" is a negative [int]. *)
Definition read : M Z := fun s =>
  match rx s with
  | [] => Some (-1, s)
  | c :: rest =>
      Some (int_of_char c,
            {| rx := rest; clock := clock s;
               _timeout := _timeout s; _startMillis := _startMillis s |})
  end.

(** Modelled from the spec: [peek()] is pure virtual in the header.  Section 6
    of the specification: the next byte value, or "none", without
    consuming. *)
Definition peek : M Z := fun s =>
  match rx s with
  | [] => Some (-1, s)
  | c :: _ => Some (int_of_char c, s)
  end.

(** Modelled from the spec: [available()] is pure virtual in the header.
    Section 6 of the specification: an integer count. *)
Definition available : M Z := fun s => Some (Z.of_nat (length (rx s)), s).

(** Modelled from the spec: [millis()] comes from Common.h, which is not part
    of the sources at hand.  Section 3 of the specification speaks of a start
    timestamp and of [now - start >= timeout]; the counter is an
    [unsigned long] and is taken to have moved on by one millisecond at each
    query, so that a busy wait is bounded by its timeout. *)
Definition millis : M Z := fun s =>
  Some (ulong (clock s),
        {| rx := rx s; clock := clock s + 1;
           _timeout := _timeout s; _startMillis := _startMillis s |}).

Definition set_startMillis (t : Z) : M unit := fun s =>
  Some (tt, {| rx := rx s; clock := clock s;
               _timeout := _timeout s; _startMillis := t |}).

(** [void setTimeout(unsigned long timeout)] *)
Definition setTimeout (timeout : Z) : M unit := fun s =>
  Some (tt, {| rx := rx s; clock := clock s;
               _timeout := ulong timeout; _startMillis := _startMillis s |}).

(** [unsigned long getTimeout(void)]; the field is an [unsigned long] and is
    read modulo 2^32. *)
Definition getTimeout : M Z := gets (fun s => ulong (_timeout s)).

(** ** Timed reads *)

(** The number of polls that a timed read may need: the clock moves at each
    poll, so [_timeout] polls after the first exhaust the deadline. *)
Definition polls (s : Stream) : nat := S (Z.to_nat (ulong (_timeout s))).

(** The [do ... while (millis() - _startMillis < _timeout)] of [timedRead]. *)
Fixpoint timedRead_poll (n : nat) : M Z :=
  match n with
  | O => spin
  | S n' =>
      c <- read ;;
      if 0 <=? c then ret c
      else
        now <- millis ;;
        start <- gets _startMillis ;;
        timeout <- getTimeout ;;
        if ulong (now - start) <? timeout then timedRead_poll n'
        else ret (-1)
  end.

(** [int timedRead()] *)
Definition timedRead : M Z :=
  now <- millis ;;
  set_startMillis now ;;;
  n <- gets polls ;;
  timedRead_poll n.

(** The [do ... while (millis() - _startMillis < _timeout)] of [timedPeek]. *)
Fixpoint timedPeek_poll (n : nat) : M Z :=
  match n with
  | O => spin
  | S n' =>
      c <- peek ;;
      if 0 <=? c then ret c
      else
        now <- millis ;;
        start <- gets _startMillis ;;
        timeout <- getTimeout ;;
        if ulong (now - start) <? timeout then timedPeek_poll n'
        else ret (-1)
  end.

(** [int timedPeek()] *)
Definition timedPeek : M Z :=
  now <- millis ;;
  set_startMillis now ;;;
  n <- gets polls ;;
  timedPeek_poll n.


(** ** Digit lookahead *)

(** [case ' ': case '\t': case '\r': case '\n':] *)
Definition iswhite (c : Z) : bool :=
  (c =? ch " ") || (c =? ch "009") || (c =? ch "013") || (c =? ch "010").

(** The [while (1)] of [peekNextDigit]; an iteration that does not return
    discards one byte of the source. *)
Fixpoint peekNextDigit_loop (fuel : nat) (lookahead : LookaheadMode)
    (detectDecimal : bool) : M Z :=
  match fuel with
  | O => spin
  | S fuel' =>
      c <- timedPeek ;;
      if (c <? 0) || (c =? ch "-") || isdigit c
         || (detectDecimal && (c =? ch "."))
      then ret c
      else
        match lookahead with
        | SKIP_NONE => ret (-1)
        | SKIP_WHITESPACE =>
            if iswhite c
            then read ;;; peekNextDigit_loop fuel' lookahead detectDecimal
            else ret (-1)
        | SKIP_ALL =>
            read ;;; peekNextDigit_loop fuel' lookahead detectDecimal
        end
  end.

(** [int peekNextDigit(LookaheadMode lookahead, bool detectDecimal)] *)
Definition peekNextDigit (lookahead : LookaheadMode) (detectDecimal : bool)
    : M Z :=
  n <- gets (fun s => length (rx s)) ;;
  peekNextDigit_loop (S n) lookahead detectDecimal.

(** ** parseInt *)

(** The comparison [(char)c == ignore]. *)
Definition is_ignore (c : Z) (ignore : ascii) : bool :=
  Ascii.eqb (char_of_int c) ignore.

(** The body of the [do ... while] of [parseInt] up to the [read()], on the
    pair of [isNegative] and [value]. *)
Definition parseInt_step (ignore : ascii) (c : Z) (a : bool * Z) : bool * Z :=
  let '(isNegative, value) := a in
  if is_ignore c ignore then (isNegative, value)
  else if c =? ch "-" then (true, value)
  else if isdigit c
       then (isNegative, long (long (long (value * 10) + c) - ch "0"))
  else (isNegative, value).

(** The loop condition of [parseInt]: [(c >= '0' && c <= '9') ||
    (char)c == ignore]. *)
Definition parseInt_more (ignore : ascii) (c : Z) : bool :=
  isdigit c || is_ignore c ignore.

(** The [do ... while] of [parseInt], from the byte [c] that the lookahead
    or the previous round peeked. *)
Fixpoint parseInt_loop (fuel : nat) (ignore : ascii) (c : Z) (a : bool * Z)
    : M (bool * Z) :=
  match fuel with
  | O => spin
  | S fuel' =>
      let a' := parseInt_step ignore c a in
      read ;;;
      c' <- timedPeek ;;
      if parseInt_more ignore c' then parseInt_loop fuel' ignore c' a'
      else ret a'
  end.

(** [long parseInt(LookaheadMode lookahead, char ignore)] *)
Definition parseInt (lookahead : LookaheadMode) (ignore : ascii) : M Z :=
  c <- peekNextDigit lookahead false ;;
  if c <? 0 then ret 0
  else
    n <- gets (fun s => length (rx s)) ;;
    r <- parseInt_loop (S n) ignore c (false, 0) ;;
    let '(isNegative, value) := r in
    ret (if isNegative then long (- value) else value).

(** ** parseFloat *)

(** [double]: IEEE 754 binary64, every operation rounded to nearest even. *)
Definition double : Type := spec_float.

Definition double_of_int (z : Z) : double := binary_normalize 53 1024 z 0 false.
Definition dmul : double -> double -> double := SFmul 53 1024.
Definition dadd : double -> double -> double := SFadd 53 1024.
Definition dsub : double -> double -> double := SFsub 53 1024.
Definition dneg : double -> double := SFopp.

(** The literal [0.1]: the binary64 number nearest to one tenth. *)
Definition d0_1 : double := SFdiv 53 1024 (double_of_int 1) (double_of_int 10).

(** The conversion of the [double] accumulator to the [float] that
    [parseFloat] returns: IEEE 754 binary32, rounded to nearest even. *)
Definition float_of_double (x : double) : spec_float :=
  match x with
  | S754_finite s m e => binary_round 24 128 s m e
  | _ => x
  end.

(** The accumulator of [parseFloat]. *)
Record FloatAcc := mkFloatAcc {
  isNegative : bool;
  isFraction : bool;
  value : double;
  fraction : double
}.

(** The body of the [do ... while] of [parseFloat] up to the [read()]. *)
Definition parseFloat_step (ignore : ascii) (c : Z) (a : FloatAcc) : FloatAcc :=
  if is_ignore c ignore then a
  else if c =? ch "-"
       then mkFloatAcc true (isFraction a) (value a) (fraction a)
  else if c =? ch "."
       then mkFloatAcc (isNegative a) true (value a) (fraction a)
  else if isdigit c then
    if isFraction a then
      let fraction' := dmul (fraction a) d0_1 in
      mkFloatAcc (isNegative a) (isFraction a)
        (dadd (value a) (dmul fraction' (double_of_int (c - ch "0"))))
        fraction'
    else
      mkFloatAcc (isNegative a) (isFraction a)
        (dsub (dadd (dmul (value a) (double_of_int 10)) (double_of_int c))
              (double_of_int (ch "0")))
        (fraction a)
  else a.

(** The loop condition of [parseFloat]: [(c >= '0' && c <= '9') ||
    (c == '.' && !isFraction) || (char)c == ignore]. *)
Definition parseFloat_more (ignore : ascii) (c : Z) (a : FloatAcc) : bool :=
  isdigit c || ((c =? ch ".") && negb (isFraction a)) || is_ignore c ignore.

(** The [do ... while] of [parseFloat]. *)
Fixpoint parseFloat_loop (fuel : nat) (ignore : ascii) (c : Z) (a : FloatAcc)
    : M FloatAcc :=
  match fuel with
  | O => spin
  | S fuel' =>
      let a' := parseFloat_step ignore c a in
      read ;;;
      c' <- timedPeek ;;
      if parseFloat_more ignore c' a' then parseFloat_loop fuel' ignore c' a'
      else ret a'
  end.

(** [float parseFloat(LookaheadMode lookahead, char ignore)] *)
Definition parseFloat (lookahead : LookaheadMode) (ignore : ascii)
    : M spec_float :=
  c <- peekNextDigit lookahead true ;;
  if c <? 0 then ret (S754_zero false)
  else
    n <- gets (fun s => length (rx s)) ;;
    a <- parseFloat_loop (S n) ignore c
           (mkFloatAcc false false (double_of_int 0) (double_of_int 1)) ;;
    ret (float_of_double (if isNegative a then dneg (value a) else value a)).

(** ** Bounded reads *)

(** The store [buffer[i] = c] into the caller's array.  A store past the end
    of the array is undefined in C++; here it is dropped. *)
Fixpoint poke (buffer : list ascii) (i : nat) (c : ascii) : list ascii :=
  match buffer, i with
  | [], _ => []
  | _ :: rest, O => c :: rest
  | b :: rest, S i' => b :: poke rest i' c
  end.

(** The [while (count < length)] of [readBytes], with [n = length - count]
    rounds to go. *)
Fixpoint readBytes_loop (n : nat) (buffer : list ascii) (count : nat)
    : M (nat * list ascii) :=
  match n with
  | O => ret (count, buffer)
  | S n' =>
      c <- timedRead ;;
      if c <? 0 then ret (count, buffer)
      else readBytes_loop n' (poke buffer count (char_of_int c)) (S count)
  end.

(** [size_t readBytes(char* buffer, size_t length)]; the result carries the
    array as the call leaves it. *)
Definition readBytes (buffer : list ascii) (length : nat)
    : M (nat * list ascii) :=
  readBytes_loop length buffer 0.

(** The [while (index < length)] of [readBytesUntil], with
    [n = length - index] rounds to go. *)
Fixpoint readBytesUntil_loop (n : nat) (terminator : ascii)
    (buffer : list ascii) (index : nat) : M (nat * list ascii) :=
  match n with
  | O => ret (index, buffer)
  | S n' =>
      c <- timedRead ;;
      if (c <? 0) || is_ignore c terminator then ret (index, buffer)
      else readBytesUntil_loop n' terminator
             (poke buffer index (char_of_int c)) (S index)
  end.

(** [size_t readBytesUntil(char terminator, char* buffer, size_t length)] *)
Definition readBytesUntil (terminator : ascii) (buffer : list ascii)
    (length : nat) : M (nat * list ascii) :=
  readBytesUntil_loop length terminator buffer 0.

(** The [while (c >= 0)] of [readString], from the byte [c] just read. *)
Fixpoint readString_loop (fuel : nat) (c : Z) (ret_ : list ascii)
    : M (list ascii) :=
  match fuel with
  | O => spin
  | S fuel' =>
      if 0 <=? c then
        c' <- timedRead ;;
        readString_loop fuel' c' (ret_ ++ [char_of_int c])
      else ret ret_
  end.

(** [String readString()]; the [String] is the list of its characters. *)
Definition readString : M (list ascii) :=
  n <- gets (fun s => length (rx s)) ;;
  c <- timedRead ;;
  readString_loop (S n) c [].

(** The [while (c >= 0 && (char)c != terminator)] of [readStringUntil]. *)
Fixpoint readStringUntil_loop (fuel : nat) (terminator : ascii) (c : Z)
    (ret_ : list ascii) : M (list ascii) :=
  match fuel with
  | O => spin
  | S fuel' =>
      if (0 <=? c) && negb (is_ignore c terminator) then
        c' <- timedRead ;;
        readStringUntil_loop fuel' terminator c' (ret_ ++ [char_of_int c])
      else ret ret_
  end.

(** [String readStringUntil(char terminator)] *)
Definition readStringUntil (terminator : ascii) : M (list ascii) :=
  n <- gets (fun s => length (rx s)) ;;
  c <- timedRead ;;
  readStringUntil_loop (S n) terminator c [].

(** ** Multi-target search *)

(** [struct MultiTarget]: the string searched for, its length, and the index
    used by the search routine. *)
Record MultiTarget := mkMultiTarget {
  str : list ascii;
  len : nat;
  index : nat
}.

(** [t->str[i]]; a C string is followed by its NUL.  A read past that NUL
    lies outside the array and is undefined in C++; the properties below are
    stated for targets that are read inside their strings ([fresh],
    [in_range]). *)
Definition str_at (t : list ascii) (i : nat) : ascii := nth i t "000"%char.

(** [for (i = 0; i < t->index; ++i) if (t->str[i] != t->str[i + diff]) break;]
    with [n] rounds to go; the result is the final [i]. *)
Fixpoint compare_run (t : list ascii) (diff : nat) (n : nat) (i : nat) : nat :=
  match n with
  | O => i
  | S n' =>
      if Ascii.eqb (str_at t i) (str_at t (i + diff)) then
        compare_run t diff n' (S i)
      else i
  end.

(** The [do ... while (t->index)] that walks the index back after a
    mismatch; [idx] is [t->index] on entry to the body, the result is
    [t->index] on exit from the loop. *)
Fixpoint walk_back (t : list ascii) (c : ascii) (origIndex : nat) (idx : nat)
    : nat :=
  match idx with
  | O => O
  | S idx' =>
      (* --t->index *)
      if negb (Ascii.eqb c (str_at t idx')) then
        (* continue *)
        walk_back t c origIndex idx'
      else if Nat.eqb idx' 0 then
        (* t->index++; break *)
        S idx'
      else
        let diff := (origIndex - idx')%nat in
        if Nat.eqb (compare_run t diff idx' 0) idx' then
          (* t->index++; break *)
          S idx'
        else walk_back t c origIndex idx'
  end.

(** The body of the inner [for] for one target and the byte [c]: whether the
    target is complete, and the target with its new index. *)
Definition advance (c : ascii) (t : MultiTarget) : bool * MultiTarget :=
  if Ascii.eqb c (str_at (str t) (index t)) then
    let t' := mkMultiTarget (str t) (len t) (S (index t)) in
    (Nat.eqb (index t') (len t'), t')
  else if Nat.eqb (index t) 0 then (false, t)
  else
    let origIndex := index t in
    (false,
     mkMultiTarget (str t) (len t) (walk_back (str t) c origIndex (index t))).

(** The inner [for (t = targets; t < targets + tCount; ++t)] from the target
    at position [i]: the index returned, if a target is complete, and the
    targets as the loop leaves them. *)
Fixpoint scan (c : ascii) (targets : list MultiTarget) (i : Z)
    : option Z * list MultiTarget :=
  match targets with
  | [] => (None, [])
  | t :: rest =>
      let '(hit, t') := advance c t in
      if hit then (Some i, t' :: rest)
      else
        let '(r, rest') := scan c rest (i + 1) in
        (r, t' :: rest')
  end.

(** The first [for] of [findMulti]: the position of the first target of
    length zero. *)
Fixpoint zero_length (targets : list MultiTarget) (i : Z) : option Z :=
  match targets with
  | [] => None
  | t :: rest => if (len t <=? 0)%nat then Some i else zero_length rest (i + 1)
  end.

(** The [while (1)] of [findMulti]; every round reads one byte. *)
Fixpoint findMulti_loop (fuel : nat) (targets : list MultiTarget) : M Z :=
  match fuel with
  | O => spin
  | S fuel' =>
      c <- timedRead ;;
      if c <? 0 then ret (-1)
      else
        match scan (char_of_int c) targets 0 with
        | (Some i, _) => ret i
        | (None, targets') => findMulti_loop fuel' targets'
        end
  end.

(** [int findMulti(struct MultiTarget* targets, int tCount)] *)
Definition findMulti (targets : list MultiTarget) : M Z :=
  match zero_length targets 0 with
  | Some i => ret i
  | None =>
      n <- gets (fun s => length (rx s)) ;;
      findMulti_loop (S n) targets
  end.

(** [bool findUntil(const char* target, size_t targetLen,
                    const char* terminator, size_t termLen)];
    a null [terminator] is [None]. *)
Definition findUntil_len (target : list ascii) (targetLen : nat)
    (terminator : option (list ascii)) (termLen : nat) : M bool :=
  match terminator with
  | None =>
      r <- findMulti [mkMultiTarget target targetLen 0] ;;
      ret (r =? 0)
  | Some term =>
      r <- findMulti [mkMultiTarget target targetLen 0;
                      mkMultiTarget term termLen 0] ;;
      ret (r =? 0)
  end.

(** [bool find(const char* target)] *)
Definition find (target : list ascii) : M bool :=
  findUntil_len target (length target) None 0.

(** [bool find(const char* target, size_t length)] *)
Definition find_len (target : list ascii) (length : nat) : M bool :=
  findUntil_len target length None 0.

(** [bool find(char target)] *)
Definition find_char (target : ascii) : M bool := find_len [target] 1.

(** [bool findUntil(const char* target, const char* terminator)] *)
Definition findUntil (target terminator : list ascii) : M bool :=
  findUntil_len target (length target) (Some terminator) (length terminator).

(** * Vocabulary of the properties *)

(** The bytes at which the lookahead stops with success. *)
Definition numeric_start (detectDecimal : bool) (a : ascii) : bool :=
  (int_of_char a =? ch "-") || isdigit (int_of_char a)
  || (detectDecimal && (int_of_char a =? ch ".")).

(** The bytes that the lookahead discards under a policy. *)
Definition skippable (lookahead : LookaheadMode) (detectDecimal : bool)
    (a : ascii) : bool :=
  negb (numeric_start detectDecimal a)
  && match lookahead with
     | SKIP_ALL => true
     | SKIP_NONE => false
     | SKIP_WHITESPACE => iswhite (int_of_char a)
     end.


(** [n] calls of a member function in a row, with the results in order. *)
Fixpoint repeat_call {A} (n : nat) (m : M A) : M (list A) :=
  match n with
  | O => ret []
  | S n' => a <- m ;; l <- repeat_call n' m ;; ret (a :: l)
  end.

(** What the source has to offer next: its first byte, or "none". *)
Definition waiting (s : Stream) : Z :=
  match rx s with
  | [] => -1
  | a :: _ => int_of_char a
  end.

(** A byte that is a decimal digit. *)
Definition digit_char (a : ascii) : bool := isdigit (int_of_char a).

(** The number that a run of digits denotes after a number [v]. *)
Definition dec_from (v : Z) (ds : list ascii) : Z :=
  fold_left (fun v d => v * 10 + (int_of_char d - ch "0")) ds v.

(** The number that a run of digits denotes. *)
Definition dec_value (ds : list ascii) : Z := dec_from 0 ds.

(** The bytes of a token that count towards its value: the digits that are
    not the ignore character. *)
Definition counted (ignore : ascii) (a : ascii) : bool :=
  digit_char a && negb (Ascii.eqb a ignore).

(** The bytes after the first that belong to an integer token: digits and
    the ignore character. *)
Definition int_more (ignore : ascii) (a : ascii) : bool :=
  digit_char a || Ascii.eqb a ignore.

(** What ends an integer token: a byte that is neither a digit nor the
    ignore character, or the end of the source (the timeout code cast to
    [char] is the byte 255). *)
Definition int_stop (ignore : ascii) (tail : list ascii) : bool :=
  match tail with
  | [] => negb (Ascii.eqb "255"%char ignore)
  | d :: _ => negb (int_more ignore d)
  end.

(** A token is negative when it starts with a minus sign that is not the
    ignore character. *)
Definition negative_start (ignore : ascii) (c0 : ascii) : bool :=
  Ascii.eqb c0 "-"%char && negb (Ascii.eqb c0 ignore).

(** The accumulator of [parseFloat] on entry to its loop. *)
Definition FloatAcc0 : FloatAcc :=
  mkFloatAcc false false (double_of_int 0) (double_of_int 1).

(** The bytes after the first that belong to a floating-point token: each
    one must pass the loop condition of [parseFloat] in the state that the
    bytes before it have led to. *)
Fixpoint float_run (ignore : ascii) (a : FloatAcc) (run : list ascii) : bool :=
  match run with
  | [] => true
  | c :: run' =>
      parseFloat_more ignore (int_of_char c) a
      && float_run ignore (parseFloat_step ignore (int_of_char c) a) run'
  end.

(** What ends a floating-point token in the state [a]: a byte that fails the
    loop condition, or the end of the source. *)
Definition float_stop (ignore : ascii) (a : FloatAcc) (tail : list ascii)
    : bool :=
  match tail with
  | [] => negb (Ascii.eqb "255"%char ignore)
  | d :: _ => negb (parseFloat_more ignore (int_of_char d) a)
  end.

(** The accumulator after the bytes of a token. *)
Definition float_acc (ignore : ascii) (token : list ascii) (a : FloatAcc)
    : FloatAcc :=
  fold_left (fun a c => parseFloat_step ignore (int_of_char c) a) token a.

(** The [double] that a run of digits before the decimal point denotes
    after [v]: [value * 10 + c - '0'] at every digit. *)
Definition double_int_part (v : double) (ds : list ascii) : double :=
  fold_left
    (fun v d => dsub (dadd (dmul v (double_of_int 10))
                           (double_of_int (int_of_char d)))
                     (double_of_int (ch "0")))
    ds v.

(** The scale factor of the [k]-th digit after the decimal point: 1.0
    multiplied [k] times by 0.1. *)
Fixpoint scale (k : nat) : double :=
  match k with
  | O => double_of_int 1
  | S k' => dmul (scale k') d0_1
  end.

(** The [double] that a run of digits after the decimal point adds to [v]
    when [k] digits came before them: the digit at position [k + 1] is
    weighted by [scale (k + 1)]. *)
Fixpoint double_frac_part (v : double) (k : nat) (ds : list ascii) : double :=
  match ds with
  | [] => v
  | d :: ds' =>
      double_frac_part
        (dadd v (dmul (scale (S k)) (double_of_int (int_of_char d - ch "0"))))
        (S k) ds'
  end.

(** The binary32 number nearest to [n / d], as a literal such as [3.14f]
    denotes it. *)
Definition float_literal (n d : Z) : spec_float :=
  SFdiv 24 128 (binary_normalize 24 128 n 0 false)
               (binary_normalize 24 128 d 0 false).

(** A run of bytes none of which is the ignore character. *)
Definition no_ignore (ignore : ascii) (l : list ascii) : bool :=
  forallb (fun c => negb (Ascii.eqb c ignore)) l.

(** The array after the bytes [l] have been stored from position [i] on. *)
Fixpoint poke_all (buffer : list ascii) (i : nat) (l : list ascii)
    : list ascii :=
  match l with
  | [] => buffer
  | c :: l' => poke_all (poke buffer i c) (S i) l'
  end.

(** The pattern that a target stands for: the first [len] bytes of [str]. *)
Definition pattern (t : MultiTarget) : list ascii := firstn (len t) (str t).

(** The target that [find] and [findUntil] set up for a pattern. *)
Definition target_of (p : list ascii) : MultiTarget :=
  mkMultiTarget p (length p) 0.

(** A target as a search receives it: a pattern that is not empty and lies
    within the string, and the index at zero. *)
Definition fresh (t : MultiTarget) : Prop :=
  (0 < len t <= length (str t))%nat /\ index t = O.

(** The text [w] ends with [p]. *)
Definition ends_with (w p : list ascii) : Prop := exists u, w = u ++ p.

(** The pattern [p] occurs in the text. *)
Definition occurs_in (p text : list ascii) : Prop :=
  exists u v, text = u ++ p ++ v.

(** The first [k] bytes of [p] are the last [k] bytes of the text [w]. *)
Definition matched (w p : list ascii) (k : nat) : Prop :=
  (k <= length w)%nat
  /\ forall i, (i < k)%nat -> str_at p i = str_at w (length w - k + i).

(** The invariant of the search for one target after the text [w] has been
    read without the pattern ending there: the index is the length of the
    longest proper prefix of the pattern that ends [w]. *)
Definition tracks (w : list ascii) (t : MultiTarget) : Prop :=
  (index t < len t <= length (str t))%nat
  /\ matched w (str t) (index t)
  /\ forall k, (index t < k < len t)%nat -> ~ matched w (str t) k.

(** After a mismatch at index [L] on the byte [c], the index [k] is a
    candidate when [p[k]] is [c] and the first [k] bytes of [p] are the [k]
    bytes before position [L]. *)
Definition candidate (p : list ascii) (c : ascii) (L k : nat) : Prop :=
  str_at p k = c
  /\ forall i, (i < k)%nat -> str_at p i = str_at p (i + (L - k)).

(** After the text [w], the bytes [pre] bring the first hit of a search for
    the patterns [ps], and it is the pattern at position [i]: that pattern
    ends [w ++ pre], no pattern before it in the list does, and no pattern
    ends the text at any earlier byte of [pre]. *)
Definition first_hit (ps : list (list ascii)) (w pre : list ascii) (i : nat)
    : Prop :=
  exists p,
    nth_error ps i = Some p
    /\ ends_with (w ++ pre) p
    /\ (forall j q, (j < i)%nat -> nth_error ps j = Some q ->
          ~ ends_with (w ++ pre) q)
    /\ (forall pre' x q, pre = pre' ++ x -> x <> [] -> pre' <> [] ->
          In q ps -> ~ ends_with (w ++ pre') q).

(** After the text [w], no byte of [input] brings a hit. *)
Definition no_hit (ps : list (list ascii)) (w input : list ascii) : Prop :=
  forall pre x q, input = pre ++ x -> pre <> [] -> In q ps ->
    ~ ends_with (w ++ pre) q.

(** [p] is a prefix of the text, as a test. *)
Fixpoint prefixb (p text : list ascii) : bool :=
  match p, text with
  | [], _ => true
  | _ :: _, [] => false
  | a :: p', b :: text' => Ascii.eqb a b && prefixb p' text'
  end.

(** [p] occurs in the text, as a test. *)
Fixpoint occursb (p text : list ascii) : bool :=
  prefixb p text
  || match text with
     | [] => false
     | _ :: text' => occursb p text'
     end.

(** Modelled from the spec: the "naive reset-to-zero-on-mismatch
    implementation" that section 8 of the specification and the comment in
    [findMulti] set against the walk back.  It is [advance] with the walk
    back replaced by [t->index = 0]. *)
Definition naive_advance (c : ascii) (t : MultiTarget) : bool * MultiTarget :=
  if Ascii.eqb c (str_at (str t) (index t)) then
    let t' := mkMultiTarget (str t) (len t) (S (index t)) in
    (Nat.eqb (index t') (len t'), t')
  else (false, mkMultiTarget (str t) (len t) 0).

(** Modelled from the spec: the inner loop of the naive scheme. *)
Fixpoint naive_scan (c : ascii) (targets : list MultiTarget) (i : Z)
    : option Z * list MultiTarget :=
  match targets with
  | [] => (None, [])
  | t :: rest =>
      let '(hit, t') := naive_advance c t in
      if hit then (Some i, t' :: rest)
      else
        let '(r, rest') := naive_scan c rest (i + 1) in
        (r, t' :: rest')
  end.

(** Modelled from the spec: the search loop of the naive scheme. *)
Fixpoint naive_findMulti_loop (fuel : nat) (targets : list MultiTarget)
    : M Z :=
  match fuel with
  | O => spin
  | S fuel' =>
      c <- timedRead ;;
      if c <? 0 then ret (-1)
      else
        match naive_scan (char_of_int c) targets 0 with
        | (Some i, _) => ret i
        | (None, targets') => naive_findMulti_loop fuel' targets'
        end
  end.

(** Modelled from the spec: the naive scheme in the place of [findMulti]. *)
Definition naive_findMulti (targets : list MultiTarget) : M Z :=
  match zero_length targets 0 with
  | Some i => ret i
  | None =>
      n <- gets (fun s => length (rx s)) ;;
      naive_findMulti_loop (S n) targets
  end.

(** A search followed by [readString], as the test suite observes where a
    search has left the stream. *)
Definition then_readString (search : M bool) : M (bool * list ascii) :=
  r <- search ;;
  rest <- readString ;;
  ret (r, rest).

(** The bytes of [l] before the first byte equal to [terminator]; all of [l]
    when there is none. *)
Fixpoint before (terminator : ascii) (l : list ascii) : list ascii :=
  match l with
  | [] => []
  | c :: l' => if Ascii.eqb c terminator then [] else c :: before terminator l'
  end.

(** The longest run of bytes at the head of [l] that pass the test [f]. *)
Fixpoint take_while (f : ascii -> bool) (l : list ascii) : list ascii :=
  match l with
  | [] => []
  | a :: l' => if f a then a :: take_while f l' else []
  end.

(** What follows the longest run of bytes that pass the test [f]. *)
Definition drop_while (f : ascii -> bool) (l : list ascii) : list ascii :=
  skipn (length (take_while f l)) l.

(** [parseInt] as a function of the bytes that the source holds: the value
    returned and the bytes left unread.  The bytes that the lookahead
    discards are dropped; a byte that can start a number opens a token, which
    runs over the digits and ignore characters after it. *)
Definition parseInt_bytes (lookahead : LookaheadMode) (ignore : ascii)
    (l : list ascii) : Z * list ascii :=
  match drop_while (skippable lookahead false) l with
  | [] => (0, [])
  | c0 :: l2 =>
      if numeric_start false c0 then
        let token := c0 :: take_while (int_more ignore) l2 in
        (long (if negative_start ignore c0
               then - dec_value (filter (counted ignore) token)
               else dec_value (filter (counted ignore) token)),
         drop_while (int_more ignore) l2)
      else (0, c0 :: l2)
  end.

(** What follows the first occurrence of [p] in the text; nothing when [p]
    does not occur. *)
Fixpoint after_first (p text : list ascii) : list ascii :=
  if prefixb p text then skipn (length p) text
  else match text with
       | [] => []
       | _ :: text' => after_first p text'
       end.

(** The rounds of the search loop on the bytes [bytes], without the reads:
    the index returned, if a round returns, and the targets as the rounds
    leave them. *)
Fixpoint feed (targets : list MultiTarget) (bytes : list ascii)
    : option Z * list MultiTarget :=
  match bytes with
  | [] => (None, targets)
  | c :: rest =>
      match scan c targets 0 with
      | (Some i, targets') => (Some i, targets')
      | (None, targets') => feed targets' rest
      end
  end.

(** The [float] that [parseFloat] returns for the [double] it has
    accumulated: negated for a negative token, then rounded. *)
Definition float_result (negative : bool) (v : double) : spec_float :=
  float_of_double (if negative then dneg v else v).

(** [parseFloat] as a function of the bytes that the source holds: the value
    returned and the bytes left unread.  The bytes that the lookahead
    discards are dropped; a byte that can start a number opens a token.  A
    token that opens with a decimal point (other than the ignore character)
    is that point and the digits and ignore characters after it.  Any other
    token is its first byte and the digits and ignore characters after it,
    followed, when the next byte is a decimal point, by that point and the
    digits and ignore characters after it.  The value is that of the counted
    digits before and after the point, negated for a leading sign. *)
Definition parseFloat_bytes (lookahead : LookaheadMode) (ignore : ascii)
    (l : list ascii) : spec_float * list ascii :=
  match drop_while (skippable lookahead true) l with
  | [] => (S754_zero false, [])
  | c0 :: l2 =>
      if numeric_start true c0 then
        if Ascii.eqb c0 "."%char && negb (Ascii.eqb c0 ignore) then
          (float_result false
             (double_frac_part (double_of_int 0) O
                (filter (counted ignore) (take_while (int_more ignore) l2))),
           drop_while (int_more ignore) l2)
        else
          let v := double_int_part (double_of_int 0)
                     (filter (counted ignore)
                             (c0 :: take_while (int_more ignore) l2)) in
          match drop_while (int_more ignore) l2 with
          | [] => (float_result (negative_start ignore c0) v, [])
          | p :: l3 =>
              if Ascii.eqb p "."%char then
                (float_result (negative_start ignore c0)
                   (double_frac_part v O
                      (filter (counted ignore)
                              (take_while (int_more ignore) l3))),
                 drop_while (int_more ignore) l3)
              else (float_result (negative_start ignore c0) v, p :: l3)
          end
      else (S754_zero false, c0 :: l2)
  end.

(** * Properties *)

(** ** Machine integers and characters *)

Lemma ulong_sub (a b : Z) : ulong (ulong a - ulong b) = ulong (a - b).
Proof. unfold ulong. now rewrite <- Zminus_mod. Qed.

Lemma ulong_small (k : Z) : 0 <= k < 2 ^ 32 -> ulong k = k.
Proof. intros H. unfold ulong. now apply Z.mod_small. Qed.

Lemma ulong_range (z : Z) : 0 <= ulong z < 2 ^ 32.
Proof. unfold ulong. apply Z.mod_pos_bound. lia. Qed.

Lemma int_of_char_range (c : ascii) : 0 <= int_of_char c < 256.
Proof.
  unfold int_of_char. pose proof (N_ascii_bounded c). lia.
Qed.

Lemma char_of_int_of_char (c : ascii) : char_of_int (int_of_char c) = c.
Proof.
  unfold char_of_int. pose proof (int_of_char_range c) as H.
  rewrite Z.mod_small by lia. unfold int_of_char.
  rewrite N2Z.id. apply ascii_N_embedding.
Qed.

Lemma int_of_char_inj (a b : ascii) : int_of_char a = int_of_char b -> a = b.
Proof.
  intros H. rewrite <- (char_of_int_of_char a), <- (char_of_int_of_char b).
  now rewrite H.
Qed.

(** ** Timed reads on the modelled source *)

(** A poll on an empty source that started [k] clock queries ago runs until
    the deadline and gives the timeout code. *)
Lemma timedRead_poll_empty (n : nat) : forall (s : Stream) (k : Z),
  rx s = [] ->
  1 <= k ->
  k <= Z.max 1 (ulong (_timeout s)) ->
  _startMillis s = ulong (clock s - k) ->
  Z.max 1 (ulong (_timeout s)) - k < Z.of_nat n ->
  exists s', timedRead_poll n s = Some (-1, s') /\ rx s' = [].
Proof.
  induction n as [|n IH]; intros s k Hrx Hk Hmax Hstart Hn; [lia|].
  pose proof (ulong_range (_timeout s)) as Ht.
  cbn [timedRead_poll]. unfold bind at 1. unfold read at 1. rewrite Hrx.
  cbn [Z.leb Z.compare bind millis gets getTimeout].
  cbn [rx clock _timeout _startMillis].
  rewrite Hstart, ulong_sub.
  replace (clock s - (clock s - k)) with k by lia.
  rewrite (ulong_small k) by lia.
  destruct (k <? ulong (_timeout s)) eqn:E.
  - apply Z.ltb_lt in E.
    apply (IH _ (k + 1)); cbn [rx clock _timeout _startMillis]; try lia; auto.
    f_equal. lia.
  - eexists. split; [reflexivity|]. exact Hrx.
Qed.

Lemma timedPeek_poll_empty (n : nat) : forall (s : Stream) (k : Z),
  rx s = [] ->
  1 <= k ->
  k <= Z.max 1 (ulong (_timeout s)) ->
  _startMillis s = ulong (clock s - k) ->
  Z.max 1 (ulong (_timeout s)) - k < Z.of_nat n ->
  exists s', timedPeek_poll n s = Some (-1, s') /\ rx s' = [].
Proof.
  induction n as [|n IH]; intros s k Hrx Hk Hmax Hstart Hn; [lia|].
  pose proof (ulong_range (_timeout s)) as Ht.
  cbn [timedPeek_poll]. unfold bind at 1. unfold peek at 1. rewrite Hrx.
  cbn [Z.leb Z.compare bind millis gets getTimeout].
  cbn [rx clock _timeout _startMillis].
  rewrite Hstart, ulong_sub.
  replace (clock s - (clock s - k)) with k by lia.
  rewrite (ulong_small k) by lia.
  destruct (k <? ulong (_timeout s)) eqn:E.
  - apply Z.ltb_lt in E.
    apply (IH _ (k + 1)); cbn [rx clock _timeout _startMillis]; try lia; auto.
    f_equal. lia.
  - eexists. split; [reflexivity|]. exact Hrx.
Qed.

(** On an empty source [timedRead] times out and leaves the source empty. *)
Lemma timedRead_nil (s : Stream) :
  rx s = [] -> exists s', timedRead s = Some (-1, s') /\ rx s' = [].
Proof.
  intros Hrx. unfold timedRead, bind, millis, set_startMillis, gets, polls.
  cbn [rx clock _timeout _startMillis].
  pose proof (ulong_range (_timeout s)) as Ht.
  apply (timedRead_poll_empty _ _ 1); cbn [rx clock _timeout _startMillis];
    auto; try lia.
  f_equal. lia.
Qed.

(** On a waiting byte [timedRead] returns it at the first poll and consumes
    it. *)
Lemma timedRead_cons (s : Stream) (c : ascii) (rest : list ascii) :
  rx s = c :: rest ->
  exists s', timedRead s = Some (int_of_char c, s') /\ rx s' = rest.
Proof.
  intros Hrx. unfold timedRead, bind, millis, set_startMillis, gets, polls.
  cbn [rx clock _timeout _startMillis timedRead_poll].
  unfold bind, read. cbn [rx clock _timeout _startMillis]. rewrite Hrx.
  pose proof (int_of_char_range c) as Hc.
  destruct (0 <=? int_of_char c) eqn:E; [|apply Z.leb_gt in E; lia].
  eexists. split; [reflexivity|]. reflexivity.
Qed.

(** On an empty source [timedPeek] times out. *)
Lemma timedPeek_nil (s : Stream) :
  rx s = [] -> exists s', timedPeek s = Some (-1, s') /\ rx s' = [].
Proof.
  intros Hrx. unfold timedPeek, bind, millis, set_startMillis, gets, polls.
  cbn [rx clock _timeout _startMillis].
  pose proof (ulong_range (_timeout s)) as Ht.
  apply (timedPeek_poll_empty _ _ 1); cbn [rx clock _timeout _startMillis];
    auto; try lia.
  f_equal. lia.
Qed.

(** On a waiting byte [timedPeek] returns it and leaves it in the source. *)
Lemma timedPeek_cons (s : Stream) (c : ascii) (rest : list ascii) :
  rx s = c :: rest ->
  exists s', timedPeek s = Some (int_of_char c, s') /\ rx s' = c :: rest.
Proof.
  intros Hrx. unfold timedPeek, bind, millis, set_startMillis, gets, polls.
  cbn [rx clock _timeout _startMillis timedPeek_poll].
  unfold bind, peek. cbn [rx clock _timeout _startMillis]. rewrite Hrx.
  pose proof (int_of_char_range c) as Hc.
  destruct (0 <=? int_of_char c) eqn:E; [|apply Z.leb_gt in E; lia].
  eexists. split; reflexivity.
Qed.

(** [read] on a waiting byte. *)
Lemma read_cons (s : Stream) (c : ascii) (rest : list ascii) :
  rx s = c :: rest ->
  exists s', read s = Some (int_of_char c, s') /\ rx s' = rest.
Proof.
  intros Hrx. unfold read. rewrite Hrx. eexists. split; reflexivity.
Qed.

(** Running a call whose outcome is known inside a [bind]. *)
Lemma bind_Some {A B} (m : M A) (k : A -> M B) (s s' : Stream) (a : A) :
  m s = Some (a, s') -> bind m k s = k a s'.
Proof. intros H. unfold bind. now rewrite H. Qed.

(** ** Digit lookahead *)

Lemma start_test (detectDecimal : bool) (a : ascii) :
  (int_of_char a <? 0) || (int_of_char a =? ch "-") || isdigit (int_of_char a)
  || (detectDecimal && (int_of_char a =? ch "."))
  = numeric_start detectDecimal a.
Proof.
  unfold numeric_start. pose proof (int_of_char_range a) as H.
  destruct (int_of_char a <? 0) eqn:E; [apply Z.ltb_lt in E; lia|].
  reflexivity.
Qed.

(** The lookahead discards a run of skippable bytes and stops at the first
    byte that can start a number, which stays in the source. *)
Lemma peekNextDigit_loop_found (la : LookaheadMode) (dd : bool) :
  forall (pre : list ascii) (fuel : nat) (s : Stream) (c0 : ascii)
         (rest : list ascii),
  rx s = pre ++ c0 :: rest ->
  forallb (skippable la dd) pre = true ->
  numeric_start dd c0 = true ->
  (length pre < fuel)%nat ->
  exists s', peekNextDigit_loop fuel la dd s = Some (int_of_char c0, s')
             /\ rx s' = c0 :: rest.
Proof.
  induction pre as [|a pre IH]; intros fuel s c0 rest Hrx Hpre Hc0 Hfuel;
    (destruct fuel as [|fuel]; [simpl in Hfuel; lia|]); cbn [peekNextDigit_loop].
  - destruct (timedPeek_cons s _ _ Hrx) as (s1 & E1 & R1).
    rewrite (bind_Some _ _ _ _ _ E1), start_test, Hc0.
    eexists. split; [reflexivity|exact R1].
  - simpl in Hrx, Hpre. apply andb_true_iff in Hpre as [Ha Hpre].
    unfold skippable in Ha. apply andb_true_iff in Ha as [Ha1 Ha2].
    apply negb_true_iff in Ha1.
    destruct (timedPeek_cons s _ _ Hrx) as (s1 & E1 & R1).
    rewrite (bind_Some _ _ _ _ _ E1), start_test, Ha1.
    destruct (read_cons s1 _ _ R1) as (s2 & E2 & R2).
    assert (Hgo : exists s', peekNextDigit_loop fuel la dd s2
                             = Some (int_of_char c0, s') /\ rx s' = c0 :: rest).
    { apply (IH fuel s2 c0 rest); auto. simpl in Hfuel. lia. }
    destruct la; try discriminate; [|rewrite Ha2];
      rewrite (bind_Some _ _ _ _ _ E2); exact Hgo.
Qed.

(** The lookahead gives the failure code at a byte that can neither start a
    number nor be discarded; that byte stays in the source. *)
Lemma peekNextDigit_loop_rejected (la : LookaheadMode) (dd : bool) :
  forall (pre : list ascii) (fuel : nat) (s : Stream) (a : ascii)
         (rest : list ascii),
  rx s = pre ++ a :: rest ->
  forallb (skippable la dd) pre = true ->
  numeric_start dd a = false ->
  skippable la dd a = false ->
  (length pre < fuel)%nat ->
  exists s', peekNextDigit_loop fuel la dd s = Some (-1, s')
             /\ rx s' = a :: rest.
Proof.
  induction pre as [|b pre IH]; intros fuel s a rest Hrx Hpre Ha Hsk Hfuel;
    (destruct fuel as [|fuel]; [simpl in Hfuel; lia|]); cbn [peekNextDigit_loop].
  - destruct (timedPeek_cons s _ _ Hrx) as (s1 & E1 & R1).
    rewrite (bind_Some _ _ _ _ _ E1), start_test, Ha.
    unfold skippable in Hsk. rewrite Ha in Hsk. simpl in Hsk.
    destruct la; try discriminate; [|rewrite Hsk];
      (eexists; split; [reflexivity|exact R1]).
  - simpl in Hrx, Hpre. apply andb_true_iff in Hpre as [Hb Hpre].
    unfold skippable in Hb. apply andb_true_iff in Hb as [Hb1 Hb2].
    apply negb_true_iff in Hb1.
    destruct (timedPeek_cons s _ _ Hrx) as (s1 & E1 & R1).
    rewrite (bind_Some _ _ _ _ _ E1), start_test, Hb1.
    destruct (read_cons s1 _ _ R1) as (s2 & E2 & R2).
    assert (Hgo : exists s', peekNextDigit_loop fuel la dd s2
                             = Some (-1, s') /\ rx s' = a :: rest).
    { apply (IH fuel s2 a rest); auto. simpl in Hfuel. lia. }
    destruct la; try discriminate; [|rewrite Hb2];
      rewrite (bind_Some _ _ _ _ _ E2); exact Hgo.
Qed.

(** The lookahead gives the timeout code when the source runs dry under the
    bytes it discards. *)
Lemma peekNextDigit_loop_dry (la : LookaheadMode) (dd : bool) :
  forall (pre : list ascii) (fuel : nat) (s : Stream),
  rx s = pre ->
  forallb (skippable la dd) pre = true ->
  (length pre < fuel)%nat ->
  exists s', peekNextDigit_loop fuel la dd s = Some (-1, s') /\ rx s' = [].
Proof.
  induction pre as [|b pre IH]; intros fuel s Hrx Hpre Hfuel;
    (destruct fuel as [|fuel]; [simpl in Hfuel; lia|]); cbn [peekNextDigit_loop].
  - destruct (timedPeek_nil s Hrx) as (s1 & E1 & R1).
    rewrite (bind_Some _ _ _ _ _ E1). cbn. eexists. split; [reflexivity|exact R1].
  - simpl in Hpre. apply andb_true_iff in Hpre as [Hb Hpre].
    unfold skippable in Hb. apply andb_true_iff in Hb as [Hb1 Hb2].
    apply negb_true_iff in Hb1.
    destruct (timedPeek_cons s _ _ Hrx) as (s1 & E1 & R1).
    rewrite (bind_Some _ _ _ _ _ E1), start_test, Hb1.
    destruct (read_cons s1 _ _ R1) as (s2 & E2 & R2).
    assert (Hgo : exists s', peekNextDigit_loop fuel la dd s2
                             = Some (-1, s') /\ rx s' = []).
    { apply (IH fuel s2); auto. simpl in Hfuel. lia. }
    destruct la; try discriminate; [|rewrite Hb2];
      rewrite (bind_Some _ _ _ _ _ E2); exact Hgo.
Qed.

Lemma timedPeek_waiting (s : Stream) :
  exists s', timedPeek s = Some (waiting s, s') /\ rx s' = rx s.
Proof.
  unfold waiting. destruct (rx s) as [|a rest] eqn:Hrx.
  - destruct (timedPeek_nil s Hrx) as (s' & E & R). now exists s'.
  - destruct (timedPeek_cons s a rest Hrx) as (s' & E & R). now exists s'.
Qed.

(** C8: any number of calls of [timedPeek] in a row, with no consuming call
    in between, all return the same value (the byte waiting in the source,
    or the timeout code when there is none) and leave the source's unread
    bytes as they were. *)
Theorem timedPeek_idempotent (n : nat) : forall s : Stream,
  exists s', repeat_call n timedPeek s = Some (repeat (waiting s) n, s')
             /\ rx s' = rx s.
Proof.
  induction n as [|n IH]; intros s.
  - exists s. split; reflexivity.
  - destruct (timedPeek_waiting s) as (s1 & E1 & R1).
    destruct (IH s1) as (s2 & E2 & R2).
    exists s2. split; [|congruence].
    cbn [repeat_call repeat]. rewrite (bind_Some _ _ _ _ _ E1).
    rewrite (bind_Some _ _ _ _ _ E2). unfold ret, waiting. now rewrite R1.
Qed.

(** ** Targets of length zero *)

Lemma zero_length_first (targets : list MultiTarget) : forall i : Z,
  (exists t, In t targets /\ len t = O) ->
  exists (k : nat) (t : MultiTarget),
    nth_error targets k = Some t /\ len t = O
    /\ (forall j t', (j < k)%nat -> nth_error targets j = Some t' -> len t' <> O)
    /\ zero_length targets i = Some (i + Z.of_nat k).
Proof.
  induction targets as [|t0 targets IH]; intros i (t & Hin & Hlen).
  - destruct Hin.
  - cbn [zero_length]. destruct (len t0) as [|l0] eqn:E0.
    + exists O, t0. cbn. repeat split; auto; [lia | f_equal; lia].
    + assert (Hex : exists t, In t targets /\ len t = O).
      { destruct Hin as [->|Hin]; [congruence|]. now exists t. }
      destruct (IH (i + 1) Hex) as (k & t1 & Hk & Hl & Hmin & Hz).
      exists (S k), t1. cbn. repeat split; auto.
      * intros [|j] t' Hj Hn; cbn in Hn.
        -- injection Hn as <-. congruence.
        -- apply (Hmin j t'); [lia|assumption].
      * rewrite Hz. f_equal. lia.
Qed.

(** C7: when some target has length zero, [findMulti] returns the position of
    the earliest such target in the list, whatever the source holds, and the
    stream object is left exactly as it was: nothing has been read. *)
Theorem findMulti_zero_length (targets : list MultiTarget) :
  (exists t, In t targets /\ len t = O) ->
  exists (k : nat) (t : MultiTarget),
    nth_error targets k = Some t /\ len t = O
    /\ (forall j t', (j < k)%nat -> nth_error targets j = Some t' -> len t' <> O)
    /\ forall s : Stream, findMulti targets s = Some (Z.of_nat k, s).
Proof.
  intros Hex.
  destruct (zero_length_first targets 0 Hex) as (k & t & Hk & Hl & Hmin & Hz).
  exists k, t. repeat split; auto.
  intros s. unfold findMulti. rewrite Hz. reflexivity.
Qed.

Lemma findMulti_zero_length_witness :
  exists (k : nat) (t : MultiTarget),
    nth_error [mkMultiTarget (list_ascii_of_string "ab") 2 0;
               mkMultiTarget [] 0 0; mkMultiTarget [] 0 0] k = Some t
    /\ len t = O
    /\ (forall j t', (j < k)%nat ->
          nth_error [mkMultiTarget (list_ascii_of_string "ab") 2 0;
                     mkMultiTarget [] 0 0; mkMultiTarget [] 0 0] j = Some t' ->
          len t' <> O)
    /\ forall s : Stream,
         findMulti [mkMultiTarget (list_ascii_of_string "ab") 2 0;
                    mkMultiTarget [] 0 0; mkMultiTarget [] 0 0] s
         = Some (Z.of_nat k, s).
Proof.
  apply findMulti_zero_length.
  exists (mkMultiTarget [] 0 0). split; [simpl; auto | reflexivity].
Defined.

(** ** parseInt when the lookahead fails *)

(** C6: [parseInt] returns 0 whenever the digit lookahead gives a negative
    code, leaving the stream as the lookahead left it; on an empty source the
    lookahead runs into the deadline; and under SKIP_NONE a first waiting
    byte that is neither a sign, a digit, nor an enabled decimal point makes
    the lookahead fail with every unread byte still in the source, so that
    [parseInt] returns 0 with the source untouched. *)
Theorem parseInt_lookahead_fails (ignore : ascii) (s : Stream) :
  (forall la c s', peekNextDigit la false s = Some (c, s') -> c < 0 ->
     parseInt la ignore s = Some (0, s'))
  /\ (forall la dd, rx s = [] ->
        exists s', peekNextDigit la dd s = Some (-1, s') /\ rx s' = [])
  /\ (forall dd a rest, rx s = a :: rest -> numeric_start dd a = false ->
        exists s', peekNextDigit SKIP_NONE dd s = Some (-1, s')
                   /\ rx s' = rx s)
  /\ (forall a rest, rx s = a :: rest -> numeric_start false a = false ->
        exists s', parseInt SKIP_NONE ignore s = Some (0, s')
                   /\ rx s' = rx s).
Proof.
  assert (H1 : forall la c s', peekNextDigit la false s = Some (c, s') ->
                 c < 0 -> parseInt la ignore s = Some (0, s')).
  { intros la c s' E Hc. unfold parseInt. rewrite (bind_Some _ _ _ _ _ E).
    apply Z.ltb_lt in Hc. now rewrite Hc. }
  assert (H3 : forall dd a rest, rx s = a :: rest ->
                 numeric_start dd a = false ->
                 exists s', peekNextDigit SKIP_NONE dd s = Some (-1, s')
                            /\ rx s' = rx s).
  { intros dd a rest Hrx Ha. unfold peekNextDigit, bind, gets.
    destruct (peekNextDigit_loop_rejected SKIP_NONE dd [] (S (length (rx s)))
                s a rest Hrx eq_refl Ha) as (s' & E & R).
    - unfold skippable. now rewrite andb_false_r.
    - simpl. lia.
    - exists s'. split; [exact E|congruence]. }
  split; [exact H1|]. split; [|split; [exact H3|]].
  - intros la dd Hrx. unfold peekNextDigit, bind, gets.
    apply (peekNextDigit_loop_dry la dd []); auto. simpl. lia.
  - intros a rest Hrx Ha. destruct (H3 false a rest Hrx Ha) as (s' & E & R).
    exists s'. split; [|exact R]. apply (H1 SKIP_NONE (-1)); [exact E|lia].
Qed.

Lemma parseInt_lookahead_fails_witness :
  exists s', parseInt SKIP_NONE NO_IGNORE_CHAR
               (Stream_on (list_ascii_of_string "x42")) = Some (0, s')
             /\ rx s' = list_ascii_of_string "x42".
Proof.
  destruct (parseInt_lookahead_fails NO_IGNORE_CHAR
              (Stream_on (list_ascii_of_string "x42")))
    as (_ & _ & _ & H).
  apply (H "x"%char (list_ascii_of_string "42")); reflexivity.
Defined.

(** ** Arithmetic of [long] *)

Lemma long_mod (a : Z) : long a mod 2 ^ 32 = a mod 2 ^ 32.
Proof.
  unfold long. rewrite Zminus_mod_idemp_l. f_equal. lia.
Qed.

Lemma long_eqm (a b : Z) : a mod 2 ^ 32 = b mod 2 ^ 32 -> long a = long b.
Proof.
  intros H. unfold long. f_equal.
  rewrite <- (Zplus_mod_idemp_l a), <- (Zplus_mod_idemp_l b). now rewrite H.
Qed.

Lemma long_digit (v c : Z) :
  long (long (long (long v * 10) + c) - ch "0") = long ((v * 10) + (c - ch "0")).
Proof.
  apply long_eqm.
  rewrite <- Zminus_mod_idemp_l, long_mod, Zminus_mod_idemp_l.
  rewrite <- (Zminus_mod_idemp_l (_ + c)), <- (Zplus_mod_idemp_l (long _)).
  rewrite long_mod, <- Zmult_mod_idemp_l, long_mod, Zmult_mod_idemp_l.
  rewrite Zplus_mod_idemp_l, Zminus_mod_idemp_l. f_equal. lia.
Qed.

Lemma long_neg (v : Z) : long (- long v) = long (- v).
Proof.
  apply long_eqm.
  rewrite <- (Z.sub_0_l (long v)), <- (Z.sub_0_l v).
  rewrite <- Zminus_mod_idemp_r, long_mod, Zminus_mod_idemp_r. reflexivity.
Qed.

Lemma long_small (v : Z) : - 2 ^ 31 <= v < 2 ^ 31 -> long v = v.
Proof. intros H. unfold long. rewrite Z.mod_small; lia. Qed.

(** ** The scan of parseInt *)

Lemma is_ignore_char (a ignore : ascii) :
  is_ignore (int_of_char a) ignore = Ascii.eqb a ignore.
Proof. unfold is_ignore. now rewrite char_of_int_of_char. Qed.

Lemma parseInt_more_char (ignore a : ascii) :
  parseInt_more ignore (int_of_char a) = int_more ignore a.
Proof. unfold parseInt_more, int_more, digit_char. now rewrite is_ignore_char. Qed.

Lemma parseInt_more_timeout (ignore : ascii) :
  parseInt_more ignore (-1) = Ascii.eqb "255"%char ignore.
Proof. reflexivity. Qed.

(** From a peeked first byte the loop of [parseInt] consumes that byte and
    the run of digits and ignore characters after it, and stops with the
    byte that ends the token still in the source. *)
Lemma parseInt_loop_run (ignore : ascii) :
  forall (run : list ascii) (fuel : nat) (c0 : ascii) (tail : list ascii)
         (acc : bool * Z) (s : Stream),
  rx s = c0 :: run ++ tail ->
  forallb (int_more ignore) run = true ->
  int_stop ignore tail = true ->
  (length run < fuel)%nat ->
  exists s',
    parseInt_loop fuel ignore (int_of_char c0) acc s
    = Some (fold_left (fun a c => parseInt_step ignore (int_of_char c) a)
                      (c0 :: run) acc, s')
    /\ rx s' = tail.
Proof.
  induction run as [|c1 run IH]; intros fuel c0 tail acc s Hrx Hrun Hstop Hfuel;
    (destruct fuel as [|fuel]; [simpl in Hfuel; lia|]); cbn [parseInt_loop].
  - simpl in Hrx. destruct (read_cons s _ _ Hrx) as (s1 & E1 & R1).
    rewrite (bind_Some _ _ _ _ _ E1).
    destruct tail as [|d tail].
    + destruct (timedPeek_nil s1 R1) as (s2 & E2 & R2).
      rewrite (bind_Some _ _ _ _ _ E2), parseInt_more_timeout.
      cbn [int_stop] in Hstop. apply negb_true_iff in Hstop. rewrite Hstop.
      eexists. split; [reflexivity|exact R2].
    + destruct (timedPeek_cons s1 _ _ R1) as (s2 & E2 & R2).
      rewrite (bind_Some _ _ _ _ _ E2), parseInt_more_char.
      cbn [int_stop] in Hstop. apply negb_true_iff in Hstop. rewrite Hstop.
      eexists. split; [reflexivity|exact R2].
  - simpl in Hrx, Hrun. apply andb_true_iff in Hrun as [Hc1 Hrun].
    destruct (read_cons s _ _ Hrx) as (s1 & E1 & R1).
    rewrite (bind_Some _ _ _ _ _ E1).
    destruct (timedPeek_cons s1 _ _ R1) as (s2 & E2 & R2).
    rewrite (bind_Some _ _ _ _ _ E2), parseInt_more_char, Hc1.
    destruct (IH fuel c1 tail (parseInt_step ignore (int_of_char c0) acc) s2)
      as (s3 & E3 & R3); auto.
    { simpl in Hfuel. lia. }
    exists s3. split; [exact E3|exact R3].
Qed.

Lemma digit_not_minus (a : ascii) :
  digit_char a = true -> (int_of_char a =? ch "-") = false.
Proof.
  unfold digit_char, isdigit. intros H. apply andb_true_iff in H as [H1 H2].
  apply Z.leb_le in H1. apply Z.eqb_neq. change (ch "0") with 48 in H1.
  change (ch "-") with 45. lia.
Qed.

(** The accumulator over the bytes after the first: the flag is kept and the
    value is the decimal value of the counted digits, wrapped to [long]. *)
Lemma parseInt_step_body (ignore : ascii) : forall (body : list ascii)
    (flag : bool) (v : Z),
  forallb (int_more ignore) body = true ->
  fold_left (fun a c => parseInt_step ignore (int_of_char c) a) body
            (flag, long v)
  = (flag, long (dec_from v (filter (counted ignore) body))).
Proof.
  induction body as [|c body IH]; intros flag v Hbody; [reflexivity|].
  simpl in Hbody. apply andb_true_iff in Hbody as [Hc Hbody].
  cbn [fold_left filter]. unfold parseInt_step at 2.
  rewrite is_ignore_char.
  destruct (Ascii.eqb c ignore) eqn:Eig.
  - assert (Hcnt : counted ignore c = false).
    { unfold counted. rewrite Eig. apply andb_false_r. }
    rewrite Hcnt. now apply IH.
  - unfold int_more in Hc. rewrite Eig, orb_false_r in Hc.
    assert (Hcnt : counted ignore c = true).
    { unfold counted. now rewrite Eig, Hc. }
    rewrite Hcnt, (digit_not_minus c Hc). unfold digit_char in Hc. rewrite Hc.
    rewrite long_digit, IH by assumption. reflexivity.
Qed.

(** The accumulator after the first byte of a token. *)
Lemma parseInt_step_first (ignore : ascii) (c0 : ascii) :
  parseInt_step ignore (int_of_char c0) (false, 0)
  = (negative_start ignore c0,
     long (dec_from 0 (filter (counted ignore) [c0]))).
Proof.
  unfold parseInt_step, negative_start, counted. rewrite is_ignore_char.
  cbn [filter].
  destruct (Ascii.eqb c0 ignore) eqn:Eig.
  - rewrite !andb_false_r. reflexivity.
  - rewrite !andb_true_r.
    destruct (int_of_char c0 =? ch "-") eqn:Em.
    + apply Z.eqb_eq in Em. apply int_of_char_inj in Em. subst c0. reflexivity.
    + assert (Hne : Ascii.eqb c0 "-"%char = false).
      { apply Ascii.eqb_neq. intros ->. discriminate. }
      rewrite Hne. unfold digit_char.
      destruct (isdigit (int_of_char c0)); [|reflexivity].
      cbn [dec_from fold_left]. f_equal.
      rewrite <- (long_small 0) at 1 by lia. rewrite long_digit.
      reflexivity.
Qed.

(** [parseInt] on a stream that holds skippable bytes, then a token, then
    what ends the token. *)
Lemma parseInt_token (la : LookaheadMode) (ignore : ascii)
    (pre : list ascii) (c0 : ascii) (body tail : list ascii) (s : Stream) :
  rx s = pre ++ c0 :: body ++ tail ->
  forallb (skippable la false) pre = true ->
  numeric_start false c0 = true ->
  forallb (int_more ignore) body = true ->
  int_stop ignore tail = true ->
  exists s',
    parseInt la ignore s
    = Some (long (if negative_start ignore c0
                  then - dec_value (filter (counted ignore) (c0 :: body))
                  else dec_value (filter (counted ignore) (c0 :: body))), s')
    /\ rx s' = tail.
Proof.
  intros Hrx Hpre Hc0 Hbody Hstop.
  destruct (peekNextDigit_loop_found la false pre (S (length (rx s))) s c0
              (body ++ tail) Hrx Hpre Hc0) as (s1 & E1 & R1).
  { rewrite Hrx, length_app. lia. }
  change (peekNextDigit_loop (S (length (rx s))) la false s)
    with (peekNextDigit la false s) in E1.
  unfold parseInt. rewrite (bind_Some _ _ _ _ _ E1).
  pose proof (int_of_char_range c0) as Hr.
  destruct (int_of_char c0 <? 0) eqn:E0; [apply Z.ltb_lt in E0; lia|].
  unfold bind at 1, gets at 1.
  destruct (parseInt_loop_run ignore body (S (length (rx s1))) c0 tail
              (false, 0) s1 R1 Hbody Hstop) as (s2 & E2 & R2).
  { rewrite R1. simpl. rewrite length_app. lia. }
  rewrite (bind_Some _ _ _ _ _ E2). exists s2. split; [|exact R2].
  cbn [fold_left]. rewrite parseInt_step_first, parseInt_step_body by assumption.
  unfold ret. do 2 f_equal.
  change (filter (counted ignore) (c0 :: body))
    with (filter (counted ignore) ([c0] ++ body)).
  rewrite filter_app. unfold dec_value, dec_from. rewrite fold_left_app.
  fold (dec_from 0 (filter (counted ignore) [c0])).
  destruct (negative_start ignore c0); [apply long_neg|reflexivity].
Qed.

(** ** The scan of parseFloat *)

Lemma parseFloat_more_timeout (ignore : ascii) (a : FloatAcc) :
  parseFloat_more ignore (-1) a = Ascii.eqb "255"%char ignore.
Proof. reflexivity. Qed.

(** From a peeked first byte the loop of [parseFloat] consumes that byte and
    the run of bytes after it that pass its condition, and stops with the
    byte that ends the token still in the source. *)
Lemma parseFloat_loop_run (ignore : ascii) :
  forall (run : list ascii) (fuel : nat) (c0 : ascii) (tail : list ascii)
         (acc : FloatAcc) (s : Stream),
  rx s = c0 :: run ++ tail ->
  float_run ignore (parseFloat_step ignore (int_of_char c0) acc) run = true ->
  float_stop ignore (float_acc ignore (c0 :: run) acc) tail = true ->
  (length run < fuel)%nat ->
  exists s',
    parseFloat_loop fuel ignore (int_of_char c0) acc s
    = Some (float_acc ignore (c0 :: run) acc, s')
    /\ rx s' = tail.
Proof.
  induction run as [|c1 run IH]; intros fuel c0 tail acc s Hrx Hrun Hstop Hfuel;
    (destruct fuel as [|fuel]; [simpl in Hfuel; lia|]); cbn [parseFloat_loop].
  - simpl in Hrx. destruct (read_cons s _ _ Hrx) as (s1 & E1 & R1).
    rewrite (bind_Some _ _ _ _ _ E1).
    cbn [float_acc fold_left] in Hstop |- *.
    destruct tail as [|d tail]; cbn [float_stop] in Hstop;
      apply negb_true_iff in Hstop.
    + destruct (timedPeek_nil s1 R1) as (s2 & E2 & R2).
      rewrite (bind_Some _ _ _ _ _ E2), parseFloat_more_timeout, Hstop.
      eexists. split; [reflexivity|exact R2].
    + destruct (timedPeek_cons s1 _ _ R1) as (s2 & E2 & R2).
      rewrite (bind_Some _ _ _ _ _ E2), Hstop.
      eexists. split; [reflexivity|exact R2].
  - simpl in Hrx. cbn [float_run] in Hrun.
    apply andb_true_iff in Hrun as [Hc1 Hrun].
    destruct (read_cons s _ _ Hrx) as (s1 & E1 & R1).
    rewrite (bind_Some _ _ _ _ _ E1).
    destruct (timedPeek_cons s1 _ _ R1) as (s2 & E2 & R2).
    rewrite (bind_Some _ _ _ _ _ E2), Hc1.
    destruct (IH fuel c1 tail (parseFloat_step ignore (int_of_char c0) acc) s2)
      as (s3 & E3 & R3); auto.
    { simpl in Hfuel. lia. }
    exists s3. split; [exact E3|exact R3].
Qed.

(** [parseFloat] on a stream that holds skippable bytes, then a token, then
    what ends the token. *)
Lemma parseFloat_token (la : LookaheadMode) (ignore : ascii)
    (pre : list ascii) (c0 : ascii) (run tail : list ascii) (s : Stream) :
  rx s = pre ++ c0 :: run ++ tail ->
  forallb (skippable la true) pre = true ->
  numeric_start true c0 = true ->
  float_run ignore (parseFloat_step ignore (int_of_char c0) FloatAcc0) run
    = true ->
  float_stop ignore (float_acc ignore (c0 :: run) FloatAcc0) tail = true ->
  exists s',
    parseFloat la ignore s
    = Some (float_of_double
              (if isNegative (float_acc ignore (c0 :: run) FloatAcc0)
               then dneg (value (float_acc ignore (c0 :: run) FloatAcc0))
               else value (float_acc ignore (c0 :: run) FloatAcc0)), s')
    /\ rx s' = tail.
Proof.
  intros Hrx Hpre Hc0 Hrun Hstop.
  destruct (peekNextDigit_loop_found la true pre (S (length (rx s))) s c0
              (run ++ tail) Hrx Hpre Hc0) as (s1 & E1 & R1).
  { rewrite Hrx, length_app. lia. }
  change (peekNextDigit_loop (S (length (rx s))) la true s)
    with (peekNextDigit la true s) in E1.
  unfold parseFloat. rewrite (bind_Some _ _ _ _ _ E1).
  pose proof (int_of_char_range c0) as Hr.
  destruct (int_of_char c0 <? 0) eqn:E0; [apply Z.ltb_lt in E0; lia|].
  unfold bind at 1, gets at 1.
  destruct (parseFloat_loop_run ignore run (S (length (rx s1))) c0 tail
              FloatAcc0 s1 R1 Hrun Hstop) as (s2 & E2 & R2).
  { rewrite R1. simpl. rewrite length_app. lia. }
  fold FloatAcc0. rewrite (bind_Some _ _ _ _ _ E2).
  exists s2. split; [reflexivity|exact R2].
Qed.

Lemma float_acc_app (ignore : ascii) (l1 l2 : list ascii) (a : FloatAcc) :
  float_acc ignore (l1 ++ l2) a = float_acc ignore l2 (float_acc ignore l1 a).
Proof. unfold float_acc. apply fold_left_app. Qed.

Lemma float_acc_cons (ignore : ascii) (c : ascii) (l : list ascii)
    (a : FloatAcc) :
  float_acc ignore (c :: l) a
  = float_acc ignore l (parseFloat_step ignore (int_of_char c) a).
Proof. reflexivity. Qed.

Lemma float_run_app (ignore : ascii) : forall (l1 l2 : list ascii)
    (a : FloatAcc),
  float_run ignore a (l1 ++ l2)
  = float_run ignore a l1 && float_run ignore (float_acc ignore l1 a) l2.
Proof.
  induction l1 as [|c l1 IH]; intros l2 a; [reflexivity|].
  cbn [app float_run float_acc fold_left]. rewrite IH.
  unfold float_acc. now rewrite andb_assoc.
Qed.

(** Digits always pass the loop condition of [parseFloat]. *)
Lemma float_run_digits (ignore : ascii) : forall (ds : list ascii)
    (a : FloatAcc),
  forallb digit_char ds = true -> float_run ignore a ds = true.
Proof.
  induction ds as [|d ds IH]; intros a Hds; [reflexivity|].
  simpl in Hds. apply andb_true_iff in Hds as [Hd Hds].
  cbn [float_run]. rewrite IH by assumption.
  unfold parseFloat_more. unfold digit_char in Hd. now rewrite Hd.
Qed.

Lemma digit_not_point (a : ascii) :
  digit_char a = true -> (int_of_char a =? ch ".") = false.
Proof.
  unfold digit_char, isdigit. intros H. apply andb_true_iff in H as [H1 H2].
  apply Z.leb_le in H1. apply Z.eqb_neq. change (ch "0") with 48 in H1.
  change (ch ".") with 46. lia.
Qed.

(** A digit that is not ignored, in either mode of accumulation. *)
Lemma parseFloat_step_digit (ignore : ascii) (d : ascii) (a : FloatAcc) :
  digit_char d = true -> Ascii.eqb d ignore = false ->
  parseFloat_step ignore (int_of_char d) a
  = if isFraction a then
      mkFloatAcc (isNegative a) (isFraction a)
        (dadd (value a)
              (dmul (dmul (fraction a) d0_1)
                    (double_of_int (int_of_char d - ch "0"))))
        (dmul (fraction a) d0_1)
    else
      mkFloatAcc (isNegative a) (isFraction a)
        (dsub (dadd (dmul (value a) (double_of_int 10))
                    (double_of_int (int_of_char d)))
              (double_of_int (ch "0")))
        (fraction a).
Proof.
  intros Hd Hig. unfold parseFloat_step.
  rewrite is_ignore_char, Hig, (digit_not_minus d Hd), (digit_not_point d Hd).
  unfold digit_char in Hd. rewrite Hd. reflexivity.
Qed.

(** The digits before the decimal point. *)
Lemma float_acc_int_part (ignore : ascii) : forall (ds : list ascii)
    (a : FloatAcc),
  forallb digit_char ds = true -> no_ignore ignore ds = true ->
  isFraction a = false ->
  float_acc ignore ds a
  = mkFloatAcc (isNegative a) false (double_int_part (value a) ds) (fraction a).
Proof.
  induction ds as [|d ds IH]; intros a Hds Hig Hfr.
  - destruct a as [n f v fr]. simpl in Hfr. subst f. reflexivity.
  - simpl in Hds, Hig. apply andb_true_iff in Hds as [Hd Hds].
    apply andb_true_iff in Hig as [Hi Hig]. apply negb_true_iff in Hi.
    rewrite float_acc_cons, (parseFloat_step_digit _ _ _ Hd Hi), Hfr.
    rewrite IH by auto. reflexivity.
Qed.

(** The digits after the decimal point. *)
Lemma float_acc_frac_part (ignore : ascii) : forall (ds : list ascii) (k : nat)
    (a : FloatAcc),
  forallb digit_char ds = true -> no_ignore ignore ds = true ->
  isFraction a = true -> fraction a = scale k ->
  float_acc ignore ds a
  = mkFloatAcc (isNegative a) true (double_frac_part (value a) k ds)
               (scale (k + length ds)).
Proof.
  induction ds as [|d ds IH]; intros k a Hds Hig Hfr Hsc.
  - destruct a as [n f v fr]. simpl in Hfr, Hsc. subst f fr.
    cbn. now rewrite Nat.add_0_r.
  - simpl in Hds, Hig. apply andb_true_iff in Hds as [Hd Hds].
    apply andb_true_iff in Hig as [Hi Hig]. apply negb_true_iff in Hi.
    rewrite float_acc_cons, (parseFloat_step_digit _ _ _ Hd Hi), Hfr.
    rewrite (IH (S k)); auto.
    + cbn [isNegative value double_frac_part scale length]. rewrite Hsc.
      f_equal. f_equal. lia.
    + cbn [fraction scale]. now rewrite Hsc.
Qed.

(** The decimal point, when it is not ignored. *)
Lemma parseFloat_step_point (ignore : ascii) (a : FloatAcc) :
  Ascii.eqb "."%char ignore = false ->
  parseFloat_step ignore (ch ".") a
  = mkFloatAcc (isNegative a) true (value a) (fraction a).
Proof.
  intros Hig. unfold parseFloat_step, ch. now rewrite is_ignore_char, Hig.
Qed.

(** The accumulator after a token of digits, a decimal point and digits. *)
Lemma float_acc_decimal (ignore : ascii) (ints fracs : list ascii) :
  forallb digit_char ints = true -> no_ignore ignore ints = true ->
  forallb digit_char fracs = true -> no_ignore ignore fracs = true ->
  Ascii.eqb "."%char ignore = false ->
  float_acc ignore (ints ++ "."%char :: fracs) FloatAcc0
  = mkFloatAcc false true
      (double_frac_part (double_int_part (double_of_int 0) ints) O fracs)
      (scale (length fracs)).
Proof.
  intros Hi1 Hi2 Hf1 Hf2 Hp.
  rewrite float_acc_app, (float_acc_int_part _ _ FloatAcc0 Hi1 Hi2 eq_refl).
  rewrite float_acc_cons. fold (ch "."). rewrite (parseFloat_step_point _ _ Hp).
  rewrite (float_acc_frac_part _ _ O) by auto. reflexivity.
Qed.

(** Every byte of such a token passes the loop condition. *)
Lemma float_run_decimal (ignore : ascii) (ints fracs : list ascii) :
  forallb digit_char ints = true -> no_ignore ignore ints = true ->
  forallb digit_char fracs = true ->
  float_run ignore FloatAcc0 (ints ++ "."%char :: fracs) = true.
Proof.
  intros Hi1 Hi2 Hf1.
  rewrite float_run_app, (float_run_digits _ _ _ Hi1).
  rewrite (float_acc_int_part _ _ FloatAcc0 Hi1 Hi2 eq_refl).
  cbn [float_run andb]. rewrite (float_run_digits _ _ _ Hf1).
  reflexivity.
Qed.

(** ** Where parseInt stops *)

(** C5: on a stream that holds bytes the lookahead discards, then a token (a
    sign or digit followed by digits and ignore characters), then a byte [d]
    that is neither a digit nor the ignore character, [parseInt] returns the
    decimal value of the token's digits, negated when the token starts with a
    sign, and leaves the source at [d]; and [parseInt(SKIP_ALL)] on
    "   -42abc" returns -42 and leaves "abc". *)
Theorem parseInt_stops_at_token_end :
  (forall (la : LookaheadMode) (ignore : ascii) (pre : list ascii)
          (c0 : ascii) (body : list ascii) (d : ascii) (rest : list ascii)
          (s : Stream),
     rx s = pre ++ c0 :: body ++ d :: rest ->
     forallb (skippable la false) pre = true ->
     numeric_start false c0 = true ->
     forallb (int_more ignore) body = true ->
     int_more ignore d = false ->
     exists s',
       parseInt la ignore s
       = Some (long (if negative_start ignore c0
                     then - dec_value (filter (counted ignore) (c0 :: body))
                     else dec_value (filter (counted ignore) (c0 :: body))),
               s')
       /\ rx s' = d :: rest)
  /\ exists s',
       parseInt SKIP_ALL NO_IGNORE_CHAR
         (Stream_on (list_ascii_of_string "   -42abc")) = Some (-42, s')
       /\ rx s' = list_ascii_of_string "abc".
Proof.
  split.
  - intros la ignore pre c0 body d rest s Hrx Hpre Hc0 Hbody Hd.
    apply (parseInt_token la ignore pre c0 body (d :: rest) s); auto.
    cbn [int_stop]. now rewrite Hd.
  - vm_compute. eexists. split; reflexivity.
Qed.

Lemma parseInt_stops_at_token_end_witness :
  exists s',
    parseInt SKIP_WHITESPACE "'"%char
      (Stream_on (list_ascii_of_string " -1'024;7"))
    = Some (-1024, s')
    /\ rx s' = list_ascii_of_string ";7".
Proof.
  apply (proj1 parseInt_stops_at_token_end SKIP_WHITESPACE "'"%char
           (list_ascii_of_string " ") "-"%char (list_ascii_of_string "1'024")
           ";"%char (list_ascii_of_string "7")); reflexivity.
Defined.

(** ** The minus sign inside a token *)

Lemma digit_numeric_start (dd : bool) (c : ascii) :
  digit_char c = true -> numeric_start dd c = true.
Proof.
  intros H. unfold numeric_start. unfold digit_char in H. rewrite H.
  now rewrite orb_true_r.
Qed.

Lemma digit_not_negative (ignore c : ascii) :
  digit_char c = true -> negative_start ignore c = false.
Proof.
  intros H. unfold negative_start.
  destruct (Ascii.eqb c "-"%char) eqn:E; [|reflexivity].
  apply Ascii.eqb_eq in E. subst c. discriminate.
Qed.

(** A byte other than the minus sign leaves the sign flag of [parseFloat]
    alone. *)
Lemma parseFloat_step_flag (ignore : ascii) (c : Z) (a : FloatAcc) :
  (c =? ch "-") = false \/ is_ignore c ignore = true ->
  isNegative (parseFloat_step ignore c a) = isNegative a.
Proof.
  intros H. unfold parseFloat_step.
  destruct (is_ignore c ignore); [reflexivity|].
  destruct H as [H|H]; [|discriminate]. rewrite H.
  destruct (c =? ch "."); [reflexivity|].
  destruct (isdigit c); [|reflexivity].
  destruct (isFraction a); reflexivity.
Qed.

(** A byte that passes the loop condition of [parseFloat] is not taken as a
    sign. *)
Lemma parseFloat_more_flag (ignore : ascii) (c : ascii) (a b : FloatAcc) :
  parseFloat_more ignore (int_of_char c) b = true ->
  isNegative (parseFloat_step ignore (int_of_char c) a) = isNegative a.
Proof.
  intros H. apply parseFloat_step_flag.
  destruct (int_of_char c =? ch "-") eqn:E; [right|now left].
  apply Z.eqb_eq in E. apply int_of_char_inj in E. subst c.
  unfold parseFloat_more in H. rewrite orb_false_l in H.
  exact H.
Qed.

Lemma float_acc_flag (ignore : ascii) : forall (run : list ascii)
    (a : FloatAcc),
  float_run ignore a run = true ->
  isNegative (float_acc ignore run a) = isNegative a.
Proof.
  induction run as [|c run IH]; intros a Hrun; [reflexivity|].
  cbn [float_run] in Hrun. apply andb_true_iff in Hrun as [Hc Hrun].
  rewrite float_acc_cons, (IH _ Hrun). now apply (parseFloat_more_flag _ _ _ a).
Qed.

(** C4, as the code has it: a minus sign is taken as the sign only where it
    is the first byte of the token.  On a stream whose token starts with a
    digit and is followed by a minus sign that is not the ignore character,
    [parseInt] and [parseFloat] stop at that minus sign, leave it in the
    source, and return the value of the token without negating it. *)
Theorem minus_after_digits_ends_token (la : LookaheadMode) (ignore : ascii)
    (pre : list ascii) (c0 : ascii) (run rest : list ascii) (s : Stream) :
  rx s = pre ++ c0 :: run ++ "-"%char :: rest ->
  digit_char c0 = true ->
  Ascii.eqb "-"%char ignore = false ->
  (forallb (skippable la false) pre = true ->
   forallb (int_more ignore) run = true ->
   exists s',
     parseInt la ignore s
     = Some (long (dec_value (filter (counted ignore) (c0 :: run))), s')
     /\ rx s' = "-"%char :: rest)
  /\ (forallb (skippable la true) pre = true ->
      float_run ignore (parseFloat_step ignore (int_of_char c0) FloatAcc0) run
        = true ->
      exists s',
        parseFloat la ignore s
        = Some (float_of_double (value (float_acc ignore (c0 :: run) FloatAcc0)),
                s')
        /\ isNegative (float_acc ignore (c0 :: run) FloatAcc0) = false
        /\ rx s' = "-"%char :: rest).
Proof.
  intros Hrx Hc0 Hig. split.
  - intros Hpre Hrun.
    destruct (parseInt_token la ignore pre c0 run ("-"%char :: rest) s)
      as (s' & E & R); auto.
    + now apply digit_numeric_start.
    + cbn [int_stop]. unfold int_more. now rewrite Hig.
    + rewrite (digit_not_negative _ _ Hc0) in E. now exists s'.
  - intros Hpre Hrun.
    assert (Hflag : isNegative (float_acc ignore (c0 :: run) FloatAcc0) = false).
    { rewrite float_acc_cons, (float_acc_flag _ _ _ Hrun).
      apply parseFloat_step_flag. left. now apply digit_not_minus. }
    destruct (parseFloat_token la ignore pre c0 run ("-"%char :: rest) s)
      as (s' & E & R); auto.
    + now apply digit_numeric_start.
    + cbn [float_stop]. unfold parseFloat_more. rewrite is_ignore_char, Hig.
      reflexivity.
    + rewrite Hflag in E. now exists s'.
Qed.

Lemma minus_after_digits_ends_token_witness :
  (exists s',
     parseInt SKIP_ALL NO_IGNORE_CHAR (Stream_on (list_ascii_of_string "x12-34"))
     = Some (12, s')
     /\ rx s' = list_ascii_of_string "-34")
  /\ (exists s',
        parseFloat SKIP_ALL NO_IGNORE_CHAR
          (Stream_on (list_ascii_of_string "x12-34"))
        = Some (float_literal 12 1, s')
        /\ isNegative (float_acc NO_IGNORE_CHAR (list_ascii_of_string "12")
                                 FloatAcc0) = false
        /\ rx s' = list_ascii_of_string "-34").
Proof.
  destruct (minus_after_digits_ends_token SKIP_ALL NO_IGNORE_CHAR
              (list_ascii_of_string "x") "1"%char (list_ascii_of_string "2")
              (list_ascii_of_string "34")
              (Stream_on (list_ascii_of_string "x12-34"))
              eq_refl eq_refl eq_refl) as [Hi Hf].
  split; [exact (Hi eq_refl eq_refl) | exact (Hf eq_refl eq_refl)].
Defined.

(** C4, as the claim has it, fails: on "12-34" [parseInt] does not read past
    the minus sign and does not negate; it returns 12 and leaves "-34".
    Likewise [parseFloat] on "1.5-2" returns 1.5 and leaves "-2". *)
Lemma minus_after_digits_counterexample :
  (exists s',
     parseInt SKIP_ALL NO_IGNORE_CHAR (Stream_on (list_ascii_of_string "12-34"))
     = Some (12, s')
     /\ rx s' = list_ascii_of_string "-34")
  /\ (exists s',
        parseFloat SKIP_ALL NO_IGNORE_CHAR
          (Stream_on (list_ascii_of_string "1.5-2"))
        = Some (float_literal 3 2, s')
        /\ rx s' = list_ascii_of_string "-2").
Proof.
  split; vm_compute; eexists; split; reflexivity.
Qed.

(** ** Tokens of parseFloat that hold ignore characters *)

(** The ignore character leaves the accumulator of [parseFloat] as it
    was. *)
Lemma parseFloat_step_ignored (ignore c : ascii) (a : FloatAcc) :
  Ascii.eqb c ignore = true -> parseFloat_step ignore (int_of_char c) a = a.
Proof. intros H. unfold parseFloat_step. now rewrite is_ignore_char, H. Qed.

(** Digits and ignore characters always pass the loop condition. *)
Lemma float_run_int_more (ignore : ascii) : forall (ds : list ascii)
    (a : FloatAcc),
  forallb (int_more ignore) ds = true -> float_run ignore a ds = true.
Proof.
  induction ds as [|d ds IH]; intros a Hds; [reflexivity|].
  simpl in Hds. apply andb_true_iff in Hds as [Hd Hds].
  cbn [float_run]. rewrite IH by assumption. rewrite andb_true_r.
  unfold parseFloat_more. rewrite is_ignore_char. unfold int_more, digit_char in Hd.
  apply orb_true_iff in Hd as [Hd|Hd]; rewrite Hd;
    [reflexivity|now rewrite orb_true_r].
Qed.

(** Digits and ignore characters before the decimal point: the counted
    digits are folded into the value, the others are skipped. *)
Lemma float_acc_int_run (ignore : ascii) : forall (ds : list ascii)
    (a : FloatAcc),
  forallb (int_more ignore) ds = true -> isFraction a = false ->
  float_acc ignore ds a
  = mkFloatAcc (isNegative a) false
      (double_int_part (value a) (filter (counted ignore) ds)) (fraction a).
Proof.
  induction ds as [|d ds IH]; intros a Hds Hfr.
  - destruct a as [n f v fr]. simpl in Hfr. subst f. reflexivity.
  - simpl in Hds. apply andb_true_iff in Hds as [Hd Hds].
    rewrite float_acc_cons. cbn [filter].
    destruct (Ascii.eqb d ignore) eqn:Eig.
    + assert (Hcnt : counted ignore d = false).
      { unfold counted. rewrite Eig. apply andb_false_r. }
      rewrite Hcnt, (parseFloat_step_ignored _ _ _ Eig). now apply IH.
    + unfold int_more in Hd. rewrite Eig, orb_false_r in Hd.
      assert (Hcnt : counted ignore d = true).
      { unfold counted. now rewrite Eig, Hd. }
      rewrite Hcnt, (parseFloat_step_digit _ _ _ Hd Eig), Hfr.
      rewrite IH by auto. reflexivity.
Qed.

(** Digits and ignore characters after the decimal point. *)
Lemma float_acc_frac_run (ignore : ascii) : forall (ds : list ascii) (k : nat)
    (a : FloatAcc),
  forallb (int_more ignore) ds = true ->
  isFraction a = true -> fraction a = scale k ->
  float_acc ignore ds a
  = mkFloatAcc (isNegative a) true
      (double_frac_part (value a) k (filter (counted ignore) ds))
      (scale (k + length (filter (counted ignore) ds))).
Proof.
  induction ds as [|d ds IH]; intros k a Hds Hfr Hsc.
  - destruct a as [n f v fr]. simpl in Hfr, Hsc. subst f fr.
    cbn. now rewrite Nat.add_0_r.
  - simpl in Hds. apply andb_true_iff in Hds as [Hd Hds].
    rewrite float_acc_cons. cbn [filter].
    destruct (Ascii.eqb d ignore) eqn:Eig.
    + assert (Hcnt : counted ignore d = false).
      { unfold counted. rewrite Eig. apply andb_false_r. }
      rewrite Hcnt, (parseFloat_step_ignored _ _ _ Eig). now apply IH.
    + unfold int_more in Hd. rewrite Eig, orb_false_r in Hd.
      assert (Hcnt : counted ignore d = true).
      { unfold counted. now rewrite Eig, Hd. }
      rewrite Hcnt, (parseFloat_step_digit _ _ _ Hd Eig), Hfr.
      rewrite (IH (S k)); auto.
      * cbn [isNegative value double_frac_part scale length]. rewrite Hsc.
        f_equal. f_equal. lia.
      * cbn [fraction scale]. now rewrite Hsc.
Qed.

(** A token of digits and ignore characters, a decimal point, and digits and
    ignore characters, from a state that has seen no decimal point. *)
Lemma float_acc_pointed (ignore : ascii) (ints fracs : list ascii)
    (a : FloatAcc) :
  forallb (int_more ignore) ints = true ->
  forallb (int_more ignore) fracs = true ->
  Ascii.eqb "."%char ignore = false ->
  isFraction a = false -> fraction a = double_of_int 1 ->
  float_acc ignore (ints ++ "."%char :: fracs) a
  = mkFloatAcc (isNegative a) true
      (double_frac_part
         (double_int_part (value a) (filter (counted ignore) ints)) O
         (filter (counted ignore) fracs))
      (scale (length (filter (counted ignore) fracs)))
  /\ float_run ignore a (ints ++ "."%char :: fracs) = true.
Proof.
  intros Hi Hf Hp Hfr Hsc. split.
  - rewrite float_acc_app, (float_acc_int_run _ _ a Hi Hfr).
    rewrite float_acc_cons. fold (ch ".").
    rewrite (parseFloat_step_point _ _ Hp).
    rewrite (float_acc_frac_run _ _ O) by auto. reflexivity.
  - rewrite float_run_app, (float_run_int_more _ _ _ Hi).
    rewrite (float_acc_int_run _ _ a Hi Hfr).
    cbn [float_run andb]. rewrite (float_run_int_more _ _ _ Hf).
    reflexivity.
Qed.

(** With the minus sign as the ignore character the counted bytes are the
    digits. *)
Lemma counted_minus (l : list ascii) :
  filter (counted "-"%char) l = filter digit_char l.
Proof.
  apply filter_ext. intros a. unfold counted.
  destruct (digit_char a) eqn:Ea; [|reflexivity].
  destruct (Ascii.eqb a "-"%char) eqn:Em; [|reflexivity].
  apply Ascii.eqb_eq in Em. subst a. discriminate.
Qed.

(** A digit or a minus sign can start a number. *)
Lemma int_more_minus_start (dd : bool) (c : ascii) :
  int_more "-"%char c = true -> numeric_start dd c = true.
Proof.
  unfold int_more. intros H. apply orb_true_iff in H as [H|H].
  - now apply digit_numeric_start.
  - apply Ascii.eqb_eq in H. subst c. reflexivity.
Qed.

(** ** The minus sign as the ignore character *)

Lemma minus_is_ignored (c : Z) :
  (c =? ch "-") = true -> is_ignore c "-"%char = true.
Proof. intros H. apply Z.eqb_eq in H. subst c. reflexivity. Qed.

(** With the minus sign as the ignore character the loop of [parseInt]
    hands back the sign flag it was given. *)
Lemma parseInt_loop_ignore_minus (fuel : nat) : forall (c : Z) (a : bool * Z)
    (s : Stream) (r : bool * Z) (s' : Stream),
  parseInt_loop fuel "-"%char c a s = Some (r, s') -> fst r = fst a.
Proof.
  induction fuel as [|fuel IH]; intros c a s r s' H; [discriminate|].
  cbn [parseInt_loop] in H. unfold bind in H.
  destruct (read s) as [[x s1]|]; [|discriminate].
  destruct (timedPeek s1) as [[c' s2]|]; [|discriminate].
  assert (Hstep : fst (parseInt_step "-"%char c a) = fst a).
  { unfold parseInt_step. destruct a as [flag v].
    destruct (is_ignore c "-"%char) eqn:E; [reflexivity|].
    destruct (c =? ch "-") eqn:Em.
    - rewrite (minus_is_ignored c Em) in E. discriminate.
    - destruct (isdigit c); reflexivity. }
  destruct (parseInt_more "-"%char c').
  - rewrite (IH _ _ _ _ _ H). exact Hstep.
  - injection H as <- _. exact Hstep.
Qed.

(** The same for the loop of [parseFloat]. *)
Lemma parseFloat_loop_ignore_minus (fuel : nat) : forall (c : Z) (a : FloatAcc)
    (s : Stream) (r : FloatAcc) (s' : Stream),
  parseFloat_loop fuel "-"%char c a s = Some (r, s') ->
  isNegative r = isNegative a.
Proof.
  induction fuel as [|fuel IH]; intros c a s r s' H; [discriminate|].
  cbn [parseFloat_loop] in H. unfold bind in H.
  destruct (read s) as [[x s1]|]; [|discriminate].
  destruct (timedPeek s1) as [[c' s2]|]; [|discriminate].
  assert (Hstep : isNegative (parseFloat_step "-"%char c a) = isNegative a).
  { apply parseFloat_step_flag.
    destruct (c =? ch "-") eqn:Em; [right|now left].
    now apply minus_is_ignored. }
  destruct (parseFloat_more "-"%char c' _).
  - rewrite (IH _ _ _ _ _ H). exact Hstep.
  - injection H as <- _. exact Hstep.
Qed.

(** C10: with the minus sign as the ignore character, on every stream the
    loops of [parseInt] and [parseFloat] never set the negative flag; a token
    is parsed to the value of its digits, not negated, and every minus sign
    in it is consumed and skipped: by [parseInt] to the decimal value of the
    digits, by [parseFloat] to the value of the digits before and after the
    decimal point, or of the digits alone when the token has no decimal
    point; [parseInt(SKIP_ALL, '-')] on "-42" returns 42, and
    [parseFloat(SKIP_ALL, '-')] on "-2.5" returns 2.5. *)
Theorem ignore_minus_never_negates :
  (forall fuel c v s flag v' s',
     parseInt_loop fuel "-"%char c (false, v) s = Some ((flag, v'), s') ->
     flag = false)
  /\ (forall fuel c a s a' s',
        parseFloat_loop fuel "-"%char c a s = Some (a', s') ->
        isNegative a = false -> isNegative a' = false)
  /\ (forall la pre c0 body tail s,
        rx s = pre ++ c0 :: body ++ tail ->
        forallb (skippable la false) pre = true ->
        numeric_start false c0 = true ->
        forallb (int_more "-"%char) body = true ->
        int_stop "-"%char tail = true ->
        exists s',
          parseInt la "-"%char s
          = Some (long (dec_value (filter digit_char (c0 :: body))), s')
          /\ rx s' = tail)
  /\ (forall la pre ints fracs d rest s,
        rx s = pre ++ (ints ++ "."%char :: fracs) ++ d :: rest ->
        forallb (skippable la true) pre = true ->
        forallb (int_more "-"%char) ints = true ->
        forallb (int_more "-"%char) fracs = true ->
        int_more "-"%char d = false ->
        exists s',
          parseFloat la "-"%char s
          = Some (float_of_double
                    (double_frac_part
                       (double_int_part (double_of_int 0)
                                        (filter digit_char ints))
                       O (filter digit_char fracs)), s')
          /\ rx s' = d :: rest)
  /\ (forall la pre c0 body d rest s,
        rx s = pre ++ c0 :: body ++ d :: rest ->
        forallb (skippable la true) pre = true ->
        int_more "-"%char c0 = true ->
        forallb (int_more "-"%char) body = true ->
        int_more "-"%char d = false ->
        Ascii.eqb d "."%char = false ->
        exists s',
          parseFloat la "-"%char s
          = Some (float_of_double
                    (double_int_part (double_of_int 0)
                                     (filter digit_char (c0 :: body))), s')
          /\ rx s' = d :: rest)
  /\ (exists s',
        parseInt SKIP_ALL "-"%char (Stream_on (list_ascii_of_string "-42"))
        = Some (42, s') /\ rx s' = [])
  /\ (exists s',
        parseFloat SKIP_ALL "-"%char (Stream_on (list_ascii_of_string "-2.5"))
        = Some (float_literal 5 2, s') /\ rx s' = []).
Proof.
  split; [|split; [|split; [|split; [|split; [|split]]]]].
  - intros fuel c v s flag v' s' H.
    apply parseInt_loop_ignore_minus in H. exact H.
  - intros fuel c a s a' s' H Ha.
    apply parseFloat_loop_ignore_minus in H. congruence.
  - intros la pre c0 body tail s Hrx Hpre Hc0 Hbody Hstop.
    destruct (parseInt_token la "-"%char pre c0 body tail s)
      as (s' & E & R); auto.
    assert (Hneg : negative_start "-"%char c0 = false).
    { unfold negative_start. now destruct (Ascii.eqb c0 "-"%char). }
    rewrite Hneg in E. exists s'. split; [|exact R]. rewrite E.
    do 3 f_equal. f_equal. apply filter_ext. intros a. unfold counted.
    destruct (digit_char a) eqn:Ea; [|reflexivity].
    destruct (Ascii.eqb a "-"%char) eqn:Em; [|reflexivity].
    apply Ascii.eqb_eq in Em. subst a. discriminate.
  - intros la pre ints fracs d rest s Hrx Hpre Hints Hfracs Hd.
    destruct (float_acc_pointed "-"%char ints fracs FloatAcc0 Hints Hfracs
                eq_refl eq_refl eq_refl) as [Hacc Hrun].
    rewrite !counted_minus in Hacc.
    assert (Hstart : forall c0 run, ints ++ "."%char :: fracs = c0 :: run ->
                       numeric_start true c0 = true).
    { intros c0 run E. destruct ints as [|i0 ints]; injection E as <- _.
      - reflexivity.
      - simpl in Hints. apply andb_true_iff in Hints as [Hi0 _].
        now apply int_more_minus_start. }
    destruct (ints ++ "."%char :: fracs) as [|c0 run] eqn:Etok.
    { destruct ints; discriminate. }
    cbn [float_run] in Hrun. apply andb_true_iff in Hrun as [_ Hrun].
    destruct (parseFloat_token la "-"%char pre c0 run (d :: rest) s)
      as (s' & E & R); auto.
    + apply (Hstart c0 run eq_refl).
    + rewrite Hacc. cbn [float_stop]. unfold parseFloat_more.
      rewrite is_ignore_char. unfold int_more, digit_char in Hd.
      apply orb_false_iff in Hd as [Hd1 Hd2]. rewrite Hd1, Hd2.
      cbn [isFraction negb]. now rewrite andb_false_r.
    + rewrite Hacc in E. exists s'. split; [exact E|exact R].
  - intros la pre c0 body d rest s Hrx Hpre Hc0 Hbody Hd Hpoint.
    assert (Htok : forallb (int_more "-"%char) (c0 :: body) = true).
    { cbn [forallb]. now rewrite Hc0, Hbody. }
    pose proof (float_acc_int_run "-"%char (c0 :: body) FloatAcc0 Htok eq_refl)
      as Hacc.
    rewrite counted_minus in Hacc.
    pose proof (float_run_int_more "-"%char (c0 :: body) FloatAcc0 Htok)
      as Hrun.
    cbn [float_run] in Hrun. apply andb_true_iff in Hrun as [_ Hrun].
    destruct (parseFloat_token la "-"%char pre c0 body (d :: rest) s)
      as (s' & E & R); auto.
    + now apply int_more_minus_start.
    + rewrite Hacc. cbn [float_stop]. unfold parseFloat_more.
      rewrite is_ignore_char. unfold int_more, digit_char in Hd.
      apply orb_false_iff in Hd as [Hd1 Hd2]. rewrite Hd1, Hd2.
      assert (Hp : (int_of_char d =? ch ".") = false).
      { apply Z.eqb_neq. intros H. apply int_of_char_inj in H. subst d.
        discriminate. }
      now rewrite Hp.
    + rewrite Hacc in E. exists s'. split; [exact E|exact R].
  - vm_compute. eexists. split; reflexivity.
  - vm_compute. eexists. split; reflexivity.
Qed.

Lemma ignore_minus_never_negates_witness :
  (exists s',
     parseInt SKIP_ALL "-"%char (Stream_on (list_ascii_of_string "a-4-2-b"))
     = Some (42, s')
     /\ rx s' = list_ascii_of_string "b")
  /\ (exists s',
        parseFloat SKIP_ALL "-"%char
          (Stream_on (list_ascii_of_string "a-4-.2-5-b"))
        = Some (float_literal 17 4, s')
        /\ rx s' = list_ascii_of_string "b")
  /\ (exists s',
        parseFloat SKIP_ALL "-"%char (Stream_on (list_ascii_of_string "a1-5;"))
        = Some (float_literal 15 1, s')
        /\ rx s' = list_ascii_of_string ";").
Proof.
  destruct ignore_minus_never_negates as (_ & _ & Hi & Hf & Hn & _).
  split; [|split].
  - apply (Hi SKIP_ALL (list_ascii_of_string "a") "-"%char
             (list_ascii_of_string "4-2-") (list_ascii_of_string "b"));
      reflexivity.
  - apply (Hf SKIP_ALL (list_ascii_of_string "a") (list_ascii_of_string "-4-")
             (list_ascii_of_string "2-5-") "b"%char []);
      reflexivity.
  - apply (Hn SKIP_ALL (list_ascii_of_string "a") "1"%char
             (list_ascii_of_string "-5") ";"%char []);
      reflexivity.
Defined.

(** ** The decimal point *)

(** C9: on a stream that holds bytes the lookahead discards, then digits, a
    decimal point and digits, then a byte [d] that is not a digit (a second
    decimal point included), [parseFloat] returns, rounded to [float], the
    value of the digits before the point plus, for the digit at position [k]
    after the point, that digit times the scale factor [scale k] (0.1
    multiplied by 0.1 per digit), and leaves the source at [d];
    [parseFloat(SKIP_ALL)] on "3.14," returns 3.14 and leaves ",". *)
Theorem parseFloat_one_decimal_point :
  (forall (la : LookaheadMode) (ignore : ascii) (pre ints fracs : list ascii)
          (d : ascii) (rest : list ascii) (s : Stream),
     rx s = pre ++ (ints ++ "."%char :: fracs) ++ d :: rest ->
     forallb (skippable la true) pre = true ->
     forallb digit_char ints = true ->
     forallb digit_char fracs = true ->
     no_ignore ignore (ints ++ "."%char :: fracs ++ [d]) = true ->
     digit_char d = false ->
     exists s',
       parseFloat la ignore s
       = Some (float_of_double
                 (double_frac_part (double_int_part (double_of_int 0) ints)
                                   O fracs), s')
       /\ rx s' = d :: rest)
  /\ exists s',
       parseFloat SKIP_ALL NO_IGNORE_CHAR
         (Stream_on (list_ascii_of_string "3.14,"))
       = Some (float_literal 314 100, s')
       /\ rx s' = list_ascii_of_string ",".
Proof.
  split.
  - intros la ignore pre ints fracs d rest s Hrx Hpre Hints Hfracs Hig Hd.
    unfold no_ignore in Hig. rewrite forallb_app in Hig.
    apply andb_true_iff in Hig as [Hig1 Hig2]. cbn [forallb] in Hig2.
    apply andb_true_iff in Hig2 as [Hp Hig2]. apply negb_true_iff in Hp.
    rewrite forallb_app in Hig2. apply andb_true_iff in Hig2 as [Hig2 Hig3].
    cbn [forallb] in Hig3. rewrite andb_true_r in Hig3.
    apply negb_true_iff in Hig3.
    pose proof (float_acc_decimal ignore ints fracs Hints Hig1 Hfracs Hig2 Hp)
      as Hacc.
    pose proof (float_run_decimal ignore ints fracs Hints Hig1 Hfracs) as Hrun.
    assert (Hstart : forall c0 run, ints ++ "."%char :: fracs = c0 :: run ->
                       numeric_start true c0 = true).
    { intros c0 run E. destruct ints as [|i0 ints]; injection E as <- _.
      - reflexivity.
      - simpl in Hints. apply andb_true_iff in Hints as [Hi0 _].
        now apply digit_numeric_start. }
    destruct (ints ++ "."%char :: fracs) as [|c0 run] eqn:Etok.
    { destruct ints; discriminate. }
    cbn [float_run] in Hrun. apply andb_true_iff in Hrun as [_ Hrun].
    destruct (parseFloat_token la ignore pre c0 run (d :: rest) s)
      as (s' & E & R); auto.
    + apply (Hstart c0 run eq_refl).
    + rewrite Hacc. cbn [float_stop]. unfold parseFloat_more.
      unfold digit_char in Hd. rewrite Hd, is_ignore_char, Hig3.
      cbn [isFraction negb]. now rewrite andb_false_r.
    + rewrite Hacc in E. exists s'. split; [exact E|exact R].
  - vm_compute. eexists. split; reflexivity.
Qed.

Lemma parseFloat_one_decimal_point_witness :
  exists s',
    parseFloat SKIP_WHITESPACE NO_IGNORE_CHAR
      (Stream_on (list_ascii_of_string " 0.25.7"))
    = Some (float_literal 1 4, s')
    /\ rx s' = list_ascii_of_string ".7".
Proof.
  apply (proj1 parseFloat_one_decimal_point SKIP_WHITESPACE NO_IGNORE_CHAR
           (list_ascii_of_string " ") (list_ascii_of_string "0")
           (list_ascii_of_string "25") "."%char (list_ascii_of_string "7"));
    reflexivity.
Defined.

(** ** Reading up to a terminator *)

Lemma poke_length (buffer : list ascii) : forall (i : nat) (c : ascii),
  length (poke buffer i c) = length buffer.
Proof.
  induction buffer as [|b buffer IH]; intros [|i] c; cbn; auto.
Qed.

Lemma poke_app (front : list ascii) (b c : ascii) (back : list ascii) :
  poke (front ++ b :: back) (length front) c = front ++ c :: back.
Proof.
  induction front as [|f front IH]; cbn; [reflexivity|]. now rewrite IH.
Qed.

(** Storing a run of bytes into an array that has room for them overwrites
    that many cells and leaves the others. *)
Lemma poke_all_app : forall (l front old back : list ascii),
  length old = length l ->
  poke_all (front ++ old ++ back) (length front) l = front ++ l ++ back.
Proof.
  induction l as [|c l IH]; intros front old back Hlen.
  - destruct old; [reflexivity|discriminate].
  - destruct old as [|b old]; [discriminate|]. cbn [poke_all].
    cbn [app]. rewrite poke_app.
    replace (front ++ c :: old ++ back) with ((front ++ [c]) ++ old ++ back)
      by now rewrite <- app_assoc.
    replace (S (length front)) with (length (front ++ [c]))
      by (rewrite length_app; simpl; lia).
    rewrite IH by (simpl in Hlen; lia). now rewrite <- app_assoc.
Qed.

Lemma poke_all_front (l buffer : list ascii) :
  (length l <= length buffer)%nat ->
  poke_all buffer O l = l ++ skipn (length l) buffer.
Proof.
  intros H. rewrite <- (firstn_skipn (length l) buffer) at 1.
  apply (poke_all_app l [] (firstn (length l) buffer)).
  rewrite length_firstn. lia.
Qed.

(** The loop of [readBytesUntil] stores the bytes before the terminator,
    reads the terminator, and stops. *)
Lemma readBytesUntil_loop_terminator (terminator : ascii) :
  forall (pre : list ascii) (n : nat) (buffer : list ascii) (index : nat)
         (post : list ascii) (s : Stream),
  rx s = pre ++ terminator :: post ->
  no_ignore terminator pre = true ->
  (length pre < n)%nat ->
  exists s',
    readBytesUntil_loop n terminator buffer index s
    = Some ((index + length pre, poke_all buffer index pre)%nat, s')
    /\ rx s' = post.
Proof.
  induction pre as [|c pre IH]; intros n buffer index post s Hrx Hpre Hn;
    (destruct n as [|n]; [simpl in Hn; lia|]); cbn [readBytesUntil_loop].
  - destruct (timedRead_cons s _ _ Hrx) as (s1 & E1 & R1).
    rewrite (bind_Some _ _ _ _ _ E1), is_ignore_char, Ascii.eqb_refl.
    rewrite orb_true_r. exists s1. split; [|exact R1].
    cbn. now rewrite Nat.add_0_r.
  - simpl in Hrx, Hpre. apply andb_true_iff in Hpre as [Hc Hpre].
    apply negb_true_iff in Hc.
    destruct (timedRead_cons s _ _ Hrx) as (s1 & E1 & R1).
    rewrite (bind_Some _ _ _ _ _ E1), is_ignore_char, Hc.
    pose proof (int_of_char_range c) as Hr.
    destruct (int_of_char c <? 0) eqn:E0; [apply Z.ltb_lt in E0; lia|].
    cbn [orb]. rewrite char_of_int_of_char.
    destruct (IH n (poke buffer index c) (S index) post s1 R1 Hpre)
      as (s2 & E2 & R2); [simpl in Hn; lia|].
    exists s2. split; [|exact R2]. rewrite E2. cbn [length poke_all].
    do 3 f_equal. lia.
Qed.

(** C3, as the code has it: when the source holds fewer than [length] bytes
    that differ from the terminator and then the terminator,
    [readBytesUntil] stores those bytes at the start of the array, returns
    their number, does not store the terminator, and consumes it: the source
    is left at the byte after the terminator. *)
Theorem readBytesUntil_consumes_terminator (terminator : ascii)
    (buffer : list ascii) (length : nat) (pre post : list ascii)
    (s : Stream) :
  rx s = pre ++ terminator :: post ->
  no_ignore terminator pre = true ->
  (List.length pre < length)%nat ->
  (List.length pre <= List.length buffer)%nat ->
  exists s',
    readBytesUntil terminator buffer length s
    = Some ((List.length pre, pre ++ skipn (List.length pre) buffer), s')
    /\ rx s' = post.
Proof.
  intros Hrx Hpre Hlen Hbuf. unfold readBytesUntil.
  destruct (readBytesUntil_loop_terminator terminator pre length buffer O
              post s Hrx Hpre Hlen) as (s' & E & R).
  exists s'. split; [|exact R]. rewrite E, poke_all_front by assumption.
  reflexivity.
Qed.

Lemma readBytesUntil_consumes_terminator_witness :
  exists s',
    readBytesUntil ","%char (repeat "000"%char 4) 4
      (Stream_on (list_ascii_of_string "ab,cd"))
    = Some ((2%nat, list_ascii_of_string "ab" ++ repeat "000"%char 2), s')
    /\ rx s' = list_ascii_of_string "cd".
Proof.
  apply (readBytesUntil_consumes_terminator ","%char (repeat "000"%char 4) 4
           (list_ascii_of_string "ab") (list_ascii_of_string "cd"));
    [reflexivity | reflexivity | simpl; lia | simpl; lia].
Defined.

(** C3, as the claim has it, fails: [readBytesUntil(',', buf, 10)] on
    "abc,def" returns 3 with "abc" in the array and leaves "def": the
    terminator has been consumed, the source is not left at ",def". *)
Lemma readBytesUntil_counterexample :
  exists s',
    readBytesUntil ","%char (repeat "000"%char 10) 10
      (Stream_on (list_ascii_of_string "abc,def"))
    = Some ((3%nat, list_ascii_of_string "abc" ++ repeat "000"%char 7), s')
    /\ rx s' = list_ascii_of_string "def"
    /\ rx s' <> list_ascii_of_string ",def".
Proof.
  vm_compute. eexists. split; [reflexivity|]. split; [reflexivity|].
  discriminate.
Qed.

(** ** Partial matches *)

Lemma matched_zero (w p : list ascii) : matched w p O.
Proof. split; [lia|]. intros i Hi. lia. Qed.

(** A partial match after one more byte of text. *)
Lemma matched_snoc (w p : list ascii) (k : nat) (c : ascii) :
  matched (w ++ [c]) p (S k) <-> str_at p k = c /\ matched w p k.
Proof.
  unfold matched, str_at. rewrite length_app. cbn [length]. split.
  - intros [Hk H]. split; [|split; [lia|]].
    + rewrite (H k) by lia.
      replace (length w + 1 - S k + k)%nat with (length w) by lia.
      apply nth_middle.
    + intros i Hi. rewrite (H i) by lia.
      replace (length w + 1 - S k + i)%nat with (length w - k + i)%nat by lia.
      apply app_nth1. lia.
  - intros [Hc [Hk H]]. split; [lia|]. intros i Hi.
    destruct (Nat.eq_dec i k) as [->|Hne].
    + replace (length w + 1 - S k + k)%nat with (length w) by lia.
      now rewrite nth_middle.
    + rewrite (H i) by lia.
      replace (length w + 1 - S k + i)%nat with (length w - k + i)%nat by lia.
      symmetry. apply app_nth1. lia.
Qed.

(** Under a partial match of length [L], a shorter one is a border. *)
Lemma matched_border (w p : list ascii) (L k : nat) :
  matched w p L -> (k <= L)%nat ->
  (matched w p k <->
   forall i, (i < k)%nat -> str_at p i = str_at p (i + (L - k))).
Proof.
  intros [HL H] Hk. unfold matched. split.
  - intros [_ Hm] i Hi. rewrite (Hm i Hi), (H (i + (L - k))%nat) by lia.
    f_equal. lia.
  - intros Hb. split; [lia|]. intros i Hi.
    rewrite (Hb i Hi), (H (i + (L - k))%nat) by lia. f_equal. lia.
Qed.

(** A match of the whole pattern, as a statement on lists. *)
Lemma matched_ends_with (w p : list ascii) (n : nat) :
  (n <= length p)%nat -> (matched w p n <-> ends_with w (firstn n p)).
Proof.
  intros Hn. unfold matched, ends_with, str_at. split.
  - intros [Hk H]. exists (firstn (length w - n) w).
    rewrite <- (firstn_skipn (length w - n) w) at 1. f_equal.
    apply (nth_ext _ _ "000"%char "000"%char).
    + rewrite length_skipn, length_firstn. lia.
    + intros i Hi. rewrite length_skipn in Hi.
      rewrite nth_skipn, nth_firstn.
      destruct (Nat.ltb_spec i n) as [Hlt|Hge]; [|lia].
      symmetry. apply H. lia.
  - intros [u ->]. rewrite length_app, length_firstn.
    split; [lia|]. intros i Hi.
    replace (length u + Nat.min n (length p) - n + i)%nat
      with (length u + i)%nat by lia.
    rewrite app_nth2_plus, nth_firstn.
    destruct (Nat.ltb_spec i n) as [Hlt|Hge]; [reflexivity|lia].
Qed.

(** ** The walk back after a mismatch *)

Lemma compare_run_bounds (p : list ascii) (diff : nat) : forall n i : nat,
  (i <= compare_run p diff n i <= i + n)%nat.
Proof.
  induction n as [|n IH]; intros i; cbn [compare_run]; [lia|].
  destruct (Ascii.eqb _ _); [|lia]. specialize (IH (S i)). lia.
Qed.

(** The comparison runs to its end exactly when every pair of bytes
    agrees. *)
Lemma compare_run_full (p : list ascii) (diff : nat) : forall n i : nat,
  compare_run p diff n i = (i + n)%nat
  <-> forall j, (i <= j < i + n)%nat -> str_at p j = str_at p (j + diff).
Proof.
  induction n as [|n IH]; intros i; cbn [compare_run].
  - split; [intros _ j Hj; lia | intros _; lia].
  - destruct (Ascii.eqb (str_at p i) (str_at p (i + diff))) eqn:E.
    + apply Ascii.eqb_eq in E.
      replace (i + S n)%nat with (S i + n)%nat by lia.
      rewrite (IH (S i)). split.
      * intros H j Hj. destruct (Nat.eq_dec j i) as [->|Hne]; [exact E|].
        apply H. lia.
      * intros H j Hj. apply H. lia.
    + apply Ascii.eqb_neq in E. split; [lia|].
      intros H. exfalso. apply E. apply H. lia.
Qed.

(** The walk back from [idx] stops at the greatest candidate below [idx],
    and gives the index after it; with no candidate it gives zero. *)
Lemma walk_back_spec (p : list ascii) (c : ascii) (L : nat) : forall idx : nat,
  (idx <= L)%nat ->
  (walk_back p c L idx = O
   /\ forall k, (k < idx)%nat -> ~ candidate p c L k)
  \/ (exists k, walk_back p c L idx = S k /\ (k < idx)%nat
                /\ candidate p c L k
                /\ forall k', (k < k' < idx)%nat -> ~ candidate p c L k').
Proof.
  induction idx as [|idx IH]; intros Hle; cbn [walk_back].
  - left. split; [reflexivity|]. intros k Hk. lia.
  - assert (Hrec :
      ~ candidate p c L idx ->
      (walk_back p c L idx = O
       /\ forall k, (k < S idx)%nat -> ~ candidate p c L k)
      \/ (exists k, walk_back p c L idx = S k /\ (k < S idx)%nat
                    /\ candidate p c L k
                    /\ forall k', (k < k' < S idx)%nat -> ~ candidate p c L k')).
    { intros Hno. assert (Hle' : (idx <= L)%nat) by lia.
      destruct (IH Hle') as [[E H]|(k & E & Hk & Hc & H)].
      - left. split; [exact E|]. intros k Hk.
        destruct (Nat.eq_dec k idx) as [->|Hne]; [exact Hno|apply H; lia].
      - right. exists k. split; [exact E|]. split; [lia|]. split; [exact Hc|].
        intros k' Hk'.
        destruct (Nat.eq_dec k' idx) as [->|Hne]; [exact Hno|apply H; lia]. }
    assert (Hstop :
      candidate p c L idx ->
      exists k, S idx = S k /\ (k < S idx)%nat /\ candidate p c L k
                /\ forall k', (k < k' < S idx)%nat -> ~ candidate p c L k').
    { intros Hc. exists idx. split; [reflexivity|]. split; [lia|].
      split; [exact Hc|]. intros k' Hk'. lia. }
    destruct (Ascii.eqb c (str_at p idx)) eqn:Ec; cbn [negb].
    + apply Ascii.eqb_eq in Ec.
      destruct (Nat.eqb idx 0) eqn:E0.
      * apply Nat.eqb_eq in E0. right. apply Hstop. subst idx.
        split; [now symmetry|]. intros i Hi. lia.
      * destruct (Nat.eqb (compare_run p (L - idx) idx 0) idx) eqn:Ecmp.
        -- apply Nat.eqb_eq in Ecmp. right. apply Hstop.
           split; [now symmetry|]. intros i Hi.
           apply (proj1 (compare_run_full p (L - idx) idx 0) Ecmp). lia.
        -- apply Nat.eqb_neq in Ecmp. apply Hrec. intros [_ Hb].
           apply Ecmp. apply (proj2 (compare_run_full p (L - idx) idx 0)).
           intros j Hj. apply Hb. lia.
    + apply Ascii.eqb_neq in Ec. apply Hrec. intros [Hc _]. now apply Ec.
Qed.

(** ** One byte against one target *)

(** Under the invariant, a partial match that the next byte extends is no
    longer than the tracked one. *)
Lemma tracks_bound (w : list ascii) (t : MultiTarget) (c : ascii) (k : nat) :
  tracks w t -> (k < len t)%nat -> matched (w ++ [c]) (str t) (S k) ->
  (k <= index t)%nat /\ str_at (str t) k = c /\ matched w (str t) k.
Proof.
  intros (Hwf & Hm & Hmax) Hk H. apply matched_snoc in H as [Hc Hmk].
  split; [|now split].
  destruct (Nat.le_gt_cases k (index t)) as [Hle|Hgt]; [exact Hle|].
  exfalso. apply (Hmax k); [lia|exact Hmk].
Qed.

(** After a mismatch, the partial matches of the longer text are the
    candidates of the walk back. *)
Lemma candidate_matched (w : list ascii) (t : MultiTarget) (c : ascii)
    (k : nat) :
  tracks w t -> (k <= index t)%nat ->
  (candidate (str t) c (index t) k <-> matched (w ++ [c]) (str t) (S k)).
Proof.
  intros (Hwf & Hm & Hmax) Hk. rewrite matched_snoc.
  rewrite (matched_border w (str t) (index t) k Hm Hk). reflexivity.
Qed.

(** The body of the inner loop keeps the invariant and reports a hit exactly
    when the pattern ends the text read so far. *)
Lemma advance_spec (w : list ascii) (c : ascii) (t : MultiTarget)
    (hit : bool) (t' : MultiTarget) :
  tracks w t -> advance c t = (hit, t') ->
  str t' = str t /\ len t' = len t
  /\ (hit = true -> matched (w ++ [c]) (str t) (len t))
  /\ (hit = false ->
      tracks (w ++ [c]) t' /\ ~ matched (w ++ [c]) (str t) (len t)).
Proof.
  intros Ht Hadv. pose proof Ht as (Hwf & Hm & Hmax).
  assert (Hnext : forall k, (k < len t)%nat ->
            matched (w ++ [c]) (str t) (S k) ->
            (k <= index t)%nat /\ str_at (str t) k = c).
  { intros k Hk H. destruct (tracks_bound w t c k Ht Hk H) as (H1 & H2 & _).
    now split. }
  unfold advance in Hadv.
  destruct (Ascii.eqb c (str_at (str t) (index t))) eqn:Ec.
  - apply Ascii.eqb_eq in Ec. injection Hadv as <- <-. cbn [str len index].
    assert (Hnew : matched (w ++ [c]) (str t) (S (index t))).
    { apply matched_snoc. split; [now symmetry|exact Hm]. }
    split; [reflexivity|]. split; [reflexivity|]. split.
    + intros E. change ((S (index t) =? len t)%nat = true) in E.
      apply Nat.eqb_eq in E. now rewrite <- E.
    + intros E. change ((S (index t) =? len t)%nat = false) in E.
      apply Nat.eqb_neq in E. split.
      * split; [cbn [str len index]; lia|]. split; [exact Hnew|].
        cbn [str len index]. intros k Hk H.
        destruct k as [|k]; [lia|]. destruct (Hnext k) as [Hle _]; [lia|exact H|lia].
      * intros H. destruct (len t) as [|n] eqn:En; [lia|].
        destruct (Hnext n) as [Hle _]; [lia|exact H|lia].
  - apply Ascii.eqb_neq in Ec.
    assert (Hlower : forall k, (k < len t)%nat ->
              matched (w ++ [c]) (str t) (S k) ->
              (k < index t)%nat /\ candidate (str t) c (index t) k).
    { intros k Hk H. destruct (Hnext k Hk H) as [Hle Hc].
      assert (Hlt : (k < index t)%nat).
      { destruct (Nat.eq_dec k (index t)) as [->|Hne]; [|lia].
        exfalso. apply Ec. now symmetry. }
      split; [exact Hlt|]. apply (candidate_matched w t c k Ht); [lia|exact H]. }
    assert (Hmiss : ~ matched (w ++ [c]) (str t) (len t)).
    { intros H. destruct (len t) as [|n] eqn:En; [lia|].
      destruct (Hlower n) as [Hlt _]; [lia|exact H|lia]. }
    destruct (Nat.eqb (index t) 0) eqn:E0.
    + apply Nat.eqb_eq in E0. injection Hadv as <- <-.
      split; [reflexivity|]. split; [reflexivity|]. split; [discriminate|].
      intros _. split; [|exact Hmiss].
      split; [exact Hwf|]. rewrite E0. split; [apply matched_zero|].
      intros k Hk H. destruct k as [|k]; [lia|].
      destruct (Hlower k) as [Hlt _]; [lia|exact H|lia].
    + injection Hadv as <- <-. cbn [str len index].
      split; [reflexivity|]. split; [reflexivity|]. split; [discriminate|].
      intros _. split; [|exact Hmiss].
      destruct (walk_back_spec (str t) c (index t) (index t) (Nat.le_refl _))
        as [[E Hno]|(k0 & E & Hk0 & Hc0 & Hno)]; rewrite E.
      * split; [cbn [str len index]; lia|]. split; [apply matched_zero|].
        cbn [str len index]. intros k Hk H. destruct k as [|k]; [lia|].
        destruct (Hlower k) as [Hlt Hc]; [lia|exact H|].
        now apply (Hno k).
      * split; [cbn [str len index]; lia|]. split.
        -- cbn [str len index].
           apply (candidate_matched w t c k0 Ht); [lia|exact Hc0].
        -- cbn [str len index]. intros k Hk H. destruct k as [|k]; [lia|].
           destruct (Hlower k) as [Hlt Hc]; [lia|exact H|].
           apply (Hno k); [lia|exact Hc].
Qed.

(** ** One byte against every target *)

Lemma tracks_ends_with (w : list ascii) (t : MultiTarget) (v : list ascii) :
  tracks w t ->
  (matched v (str t) (len t) <-> ends_with v (pattern t)).
Proof.
  intros (Hwf & _). unfold pattern. apply matched_ends_with. lia.
Qed.

(** The inner loop returns the position of the first pattern that ends the
    text read so far; when there is none it keeps the invariant of every
    target. *)
Lemma scan_spec (w : list ascii) (c : ascii) : forall (ts : list MultiTarget)
    (i : Z) (r : option Z) (ts' : list MultiTarget),
  Forall (tracks w) ts -> scan c ts i = (r, ts') ->
  map pattern ts' = map pattern ts
  /\ match r with
     | Some j =>
         exists (k : nat) (p : list ascii),
           j = i + Z.of_nat k
           /\ nth_error (map pattern ts) k = Some p
           /\ ends_with (w ++ [c]) p
           /\ forall k' q, (k' < k)%nat ->
                nth_error (map pattern ts) k' = Some q ->
                ~ ends_with (w ++ [c]) q
     | None =>
         Forall (tracks (w ++ [c])) ts'
         /\ forall q, In q (map pattern ts) -> ~ ends_with (w ++ [c]) q
     end.
Proof.
  induction ts as [|t ts IH]; intros i r ts' Hts Hscan.
  - injection Hscan as <- <-. split; [reflexivity|]. split; [constructor|].
    intros q [].
  - inversion Hts as [|? ? Ht Hrest]; subst. cbn [scan] in Hscan.
    destruct (advance c t) as [hit t1] eqn:Ea.
    destruct (advance_spec w c t hit t1 Ht Ea) as (Hstr & Hlen & Hhit & Hmiss).
    assert (Hpat : pattern t1 = pattern t).
    { unfold pattern. now rewrite Hstr, Hlen. }
    destruct hit.
    + injection Hscan as <- <-. split; [cbn [map]; now rewrite Hpat|].
      exists O, (pattern t). split; [cbn; lia|]. split; [reflexivity|]. split.
      * apply (tracks_ends_with w t _ Ht). now apply Hhit.
      * intros k' q Hk'. lia.
    + destruct (Hmiss eq_refl) as [Ht1 Hno].
      destruct (scan c ts (i + 1)) as [r1 ts1] eqn:Es.
      injection Hscan as <- <-.
      destruct (IH (i + 1) r1 ts1 Hrest Es) as [Hmap Hr1].
      split; [cbn [map]; now rewrite Hpat, Hmap|].
      assert (Hnot : ~ ends_with (w ++ [c]) (pattern t)).
      { intros H. apply Hno. now apply (tracks_ends_with w t _ Ht). }
      destruct r1 as [j|].
      * destruct Hr1 as (k & p & Hj & Hk & He & Hmin).
        exists (S k), p. split; [lia|]. split; [exact Hk|]. split; [exact He|].
        intros [|k'] q Hk' Hq; cbn in Hq.
        -- injection Hq as <-. exact Hnot.
        -- apply (Hmin k' q); [lia|exact Hq].
      * destruct Hr1 as [Hall Hnone]. split; [now constructor|].
        intros q [<-|Hq]; [exact Hnot|now apply Hnone].
Qed.

(** ** The search loop *)

(** The loop of [findMulti] on the bytes [input], after the text [w]: it
    returns at the first hit, with the source just after it, or consumes
    every byte and gives the timeout code. *)
Lemma findMulti_loop_spec (ps : list (list ascii)) :
  forall (input w : list ascii) (ts : list MultiTarget) (fuel : nat)
         (s : Stream),
  rx s = input -> map pattern ts = ps -> Forall (tracks w) ts ->
  (length input < fuel)%nat ->
  (exists (i : nat) (pre post : list ascii) (s' : Stream),
     findMulti_loop fuel ts s = Some (Z.of_nat i, s')
     /\ input = pre ++ post /\ pre <> [] /\ rx s' = post
     /\ first_hit ps w pre i)
  \/ (exists s', findMulti_loop fuel ts s = Some (-1, s') /\ rx s' = []
                 /\ no_hit ps w input).
Proof.
  induction input as [|c rest IH]; intros w ts fuel s Hrx Hps Hts Hfuel;
    (destruct fuel as [|fuel]; [simpl in Hfuel; lia|]); cbn [findMulti_loop].
  - right. destruct (timedRead_nil s Hrx) as (s1 & E1 & R1).
    rewrite (bind_Some _ _ _ _ _ E1). exists s1. split; [reflexivity|].
    split; [exact R1|]. intros pre x q E Hne. destruct pre; [contradiction|].
    discriminate.
  - destruct (timedRead_cons s _ _ Hrx) as (s1 & E1 & R1).
    rewrite (bind_Some _ _ _ _ _ E1).
    pose proof (int_of_char_range c) as Hr.
    destruct (int_of_char c <? 0) eqn:E0; [apply Z.ltb_lt in E0; lia|].
    rewrite char_of_int_of_char.
    destruct (scan c ts 0) as [r ts'] eqn:Es.
    destruct (scan_spec w c ts 0 r ts' Hts Es) as [Hmap Hr1].
    rewrite Hps in Hmap, Hr1. destruct r as [j|].
    + destruct Hr1 as (k & p & Hj & Hk & He & Hord).
      left. exists k, [c], rest, s1.
      split; [unfold ret; do 2 f_equal; lia|]. split; [reflexivity|].
      split; [discriminate|]. split; [exact R1|].
      exists p. split; [exact Hk|]. split; [exact He|]. split; [exact Hord|].
      intros pre' x q E Hx Hpre'. exfalso.
      destruct pre' as [|a pre']; [contradiction|].
      injection E as _ E. destruct pre'; [|discriminate].
      destruct x; [contradiction|discriminate].
    + destruct Hr1 as [Hall Hnone].
      destruct (IH (w ++ [c]) ts' fuel s1 R1 Hmap Hall) as
        [(i & pre & post & s' & E & Hin & Hne & R & p & Hk & He & Hord & Hmin)
        |(s' & E & R & Hno)]; [simpl in Hfuel; lia| |].
      * left. exists i, (c :: pre), post, s'.
        split; [exact E|]. split; [now rewrite Hin|].
        split; [discriminate|]. split; [exact R|].
        rewrite <- app_assoc in He. cbn [app] in He.
        exists p. split; [exact Hk|]. split; [exact He|]. split.
        -- intros j q Hj Hq H. apply (Hord j q Hj Hq).
           rewrite <- app_assoc. exact H.
        -- intros pre' x q Epre Hx Hpre' Hq H.
           destruct pre' as [|a pre']; [contradiction|].
           injection Epre as <- Epre.
           destruct pre' as [|b pre'].
           ++ now apply (Hnone q Hq).
           ++ apply (Hmin (b :: pre') x q Epre Hx); [discriminate|exact Hq|].
              rewrite <- app_assoc. exact H.
      * right. exists s'. split; [exact E|]. split; [exact R|].
        intros pre x q Epre Hpre Hq H.
        destruct pre as [|a pre]; [contradiction|].
        injection Epre as <- Epre. destruct pre as [|b pre].
        -- now apply (Hnone q Hq).
        -- apply (Hno (b :: pre) x q Epre); [discriminate|exact Hq|].
           rewrite <- app_assoc. exact H.
Qed.

(** A fresh target meets the invariant before any byte is read. *)
Lemma fresh_tracks (t : MultiTarget) : fresh t -> tracks [] t.
Proof.
  intros [Hwf H0]. unfold tracks. rewrite H0. split; [lia|].
  split; [apply matched_zero|]. intros k Hk [Hle _]. simpl in Hle. lia.
Qed.

Lemma fresh_zero_length (ts : list MultiTarget) : forall i : Z,
  Forall fresh ts -> zero_length ts i = None.
Proof.
  induction ts as [|t ts IH]; intros i Hts; [reflexivity|].
  inversion Hts as [|? ? [Hwf _] Hrest]; subst. cbn [zero_length].
  destruct (Nat.leb_spec (len t) 0) as [H|H]; [lia|]. now apply IH.
Qed.

Lemma fresh_pattern_nonempty (ts : list MultiTarget) (q : list ascii) :
  Forall fresh ts -> In q (map pattern ts) -> q <> [].
Proof.
  intros Hts Hq. apply in_map_iff in Hq as (t & <- & Ht).
  rewrite Forall_forall in Hts. destruct (Hts t Ht) as [Hwf _].
  unfold pattern. intros E. apply (f_equal (@length ascii)) in E.
  rewrite length_firstn in E. simpl in E. lia.
Qed.

(** [findMulti] on fresh targets: the first hit, or the timeout code on a
    source read to its end. *)
Lemma findMulti_spec (ts : list MultiTarget) (s : Stream) :
  Forall fresh ts ->
  (exists (i : nat) (pre post : list ascii) (s' : Stream),
     findMulti ts s = Some (Z.of_nat i, s')
     /\ rx s = pre ++ post /\ pre <> [] /\ rx s' = post
     /\ first_hit (map pattern ts) [] pre i)
  \/ (exists s', findMulti ts s = Some (-1, s') /\ rx s' = []
                 /\ no_hit (map pattern ts) [] (rx s)).
Proof.
  intros Hts. unfold findMulti. rewrite (fresh_zero_length ts 0 Hts).
  unfold bind, gets.
  apply (findMulti_loop_spec (map pattern ts) (rx s) [] ts); auto.
  apply Forall_impl with (P := fresh); [apply fresh_tracks|exact Hts].
Qed.

(** ** Occurrences *)

Lemma prefixb_spec (p : list ascii) : forall text : list ascii,
  prefixb p text = true <-> exists v, text = p ++ v.
Proof.
  induction p as [|a p IH]; intros text; cbn [prefixb].
  - split; [intros _; now exists text|reflexivity].
  - destruct text as [|b text].
    + split; [discriminate|]. intros [v E]. discriminate.
    + rewrite andb_true_iff, Ascii.eqb_eq, IH. split.
      * intros [-> [v ->]]. now exists v.
      * intros [v E]. injection E as -> ->. split; [reflexivity|now exists v].
Qed.

Lemma occursb_spec (p : list ascii) : forall text : list ascii,
  occursb p text = true <-> occurs_in p text.
Proof.
  unfold occurs_in.
  induction text as [|b text IH]; cbn [occursb]; rewrite orb_true_iff, prefixb_spec.
  - split.
    + intros [[v E]|H]; [|discriminate]. now exists [], v.
    + intros (u & v & E). left. destruct u; [now exists v|discriminate].
  - rewrite IH. split.
    + intros [[v E]|(u & v & E)].
      * now exists [], v.
      * exists (b :: u), v. now rewrite E.
    + intros (u & v & E). destruct u as [|a u].
      * left. now exists v.
      * right. injection E as _ E. now exists u, v.
Qed.

Lemma occursb_false (p text : list ascii) :
  occursb p text = false -> ~ occurs_in p text.
Proof.
  intros E H. apply occursb_spec in H. congruence.
Qed.

(** ** What findMulti finds *)

Lemma ends_with_nil (q : list ascii) : ends_with [] q -> q = [].
Proof.
  intros [u E]. symmetry in E. now apply app_eq_nil in E.
Qed.

(** C1: when some pattern of a list of non-empty patterns occurs in the bytes
    that the source delivers, [findMulti] returns the position [i] of the
    pattern whose occurrence is complete first: the source held [pre ++ post],
    pattern [i] ends [pre], no pattern earlier in the list ends [pre], no
    pattern ends a shorter prefix of the source, and the source is left at
    [post], the byte after the occurrence.  The pattern "1112" is found in
    "1111112", which a scheme that resets the index to zero on a mismatch
    misses. *)
Theorem findMulti_first_occurrence :
  (forall (targets : list MultiTarget) (s : Stream),
     Forall fresh targets ->
     (exists p, In p (map pattern targets) /\ occurs_in p (rx s)) ->
     exists (i : nat) (p pre post : list ascii) (s' : Stream),
       findMulti targets s = Some (Z.of_nat i, s')
       /\ rx s = pre ++ post /\ rx s' = post
       /\ nth_error (map pattern targets) i = Some p
       /\ ends_with pre p
       /\ (forall j q, (j < i)%nat ->
             nth_error (map pattern targets) j = Some q -> ~ ends_with pre q)
       /\ (forall pre' x q, pre = pre' ++ x -> x <> [] ->
             In q (map pattern targets) -> ~ ends_with pre' q))
  /\ (exists s',
        findMulti [target_of (list_ascii_of_string "1112")]
          (Stream_on (list_ascii_of_string "1111112")) = Some (0, s')
        /\ rx s' = [])
  /\ (exists s',
        naive_findMulti [target_of (list_ascii_of_string "1112")]
          (Stream_on (list_ascii_of_string "1111112")) = Some (-1, s')
        /\ rx s' = []).
Proof.
  split; [|split; vm_compute; eexists; split; reflexivity].
  intros targets s Hts (p0 & Hp0 & u & v & Hocc).
  destruct (findMulti_spec targets s Hts) as
    [(i & pre & post & s' & E & Hin & Hne & R & p & Hk & He & Hord & Hmin)
    |(s' & E & R & Hno)].
  - exists i, p, pre, post, s'. cbn [app] in He, Hord.
    split; [exact E|]. split; [exact Hin|]. split; [exact R|].
    split; [exact Hk|]. split; [exact He|]. split; [exact Hord|].
    intros pre' x q Epre Hx Hq H.
    destruct pre' as [|a pre'].
    + apply ends_with_nil in H. now apply (fresh_pattern_nonempty targets q Hts).
    + apply (Hmin (a :: pre') x q Epre Hx); [discriminate|exact Hq|exact H].
  - exfalso. apply (Hno (u ++ p0) v p0).
    + now rewrite <- app_assoc.
    + intros E0. apply app_eq_nil in E0 as [_ E0].
      now apply (fresh_pattern_nonempty targets p0 Hts).
    + exact Hp0.
    + now exists u.
Qed.

Lemma findMulti_first_occurrence_witness :
  exists (i : nat) (p pre post : list ascii) (s' : Stream),
    findMulti [target_of (list_ascii_of_string "abcabd");
               target_of (list_ascii_of_string "bd")]
      (Stream_on (list_ascii_of_string "abcabcabdx"))
    = Some (Z.of_nat i, s')
    /\ list_ascii_of_string "abcabcabdx" = pre ++ post /\ rx s' = post
    /\ nth_error [list_ascii_of_string "abcabd"; list_ascii_of_string "bd"] i
       = Some p
    /\ ends_with pre p
    /\ (forall j q, (j < i)%nat ->
          nth_error [list_ascii_of_string "abcabd"; list_ascii_of_string "bd"] j
          = Some q -> ~ ends_with pre q)
    /\ (forall pre' x q, pre = pre' ++ x -> x <> [] ->
          In q [list_ascii_of_string "abcabd"; list_ascii_of_string "bd"] ->
          ~ ends_with pre' q).
Proof.
  apply (proj1 findMulti_first_occurrence
           [target_of (list_ascii_of_string "abcabd");
            target_of (list_ascii_of_string "bd")]
           (Stream_on (list_ascii_of_string "abcabcabdx"))).
  - repeat constructor; simpl; lia.
  - exists (list_ascii_of_string "bd"). split; [simpl; auto|].
    exists (list_ascii_of_string "abcabca"), (list_ascii_of_string "x").
    reflexivity.
Defined.

(** ** What findMulti does not find *)

Lemma target_of_fresh (p : list ascii) : p <> [] -> fresh (target_of p).
Proof.
  intros Hp. split; [|reflexivity]. cbn [target_of len str].
  destruct p; [contradiction|]. simpl. lia.
Qed.

Lemma target_of_pattern (p : list ascii) : pattern (target_of p) = p.
Proof. unfold pattern, target_of. cbn [len str]. apply firstn_all. Qed.

(** C2: when no pattern of a list of non-empty patterns occurs in the bytes
    that the source delivers, [findMulti] returns -1 once the source is
    exhausted, and every byte has been consumed; so [find] on a target, and
    [findUntil] on a target and a terminator, return false with the source
    read to its end. *)
Theorem findMulti_no_occurrence :
  (forall (targets : list MultiTarget) (s : Stream),
     Forall fresh targets ->
     (forall p, In p (map pattern targets) -> ~ occurs_in p (rx s)) ->
     exists s', findMulti targets s = Some (-1, s') /\ rx s' = [])
  /\ (forall (target : list ascii) (s : Stream),
        target <> [] -> ~ occurs_in target (rx s) ->
        exists s', find target s = Some (false, s') /\ rx s' = [])
  /\ (forall (target terminator : list ascii) (s : Stream),
        target <> [] -> terminator <> [] ->
        ~ occurs_in target (rx s) -> ~ occurs_in terminator (rx s) ->
        exists s', findUntil target terminator s = Some (false, s')
                   /\ rx s' = []).
Proof.
  assert (H1 : forall (targets : list MultiTarget) (s : Stream),
            Forall fresh targets ->
            (forall p, In p (map pattern targets) -> ~ occurs_in p (rx s)) ->
            exists s', findMulti targets s = Some (-1, s') /\ rx s' = []).
  { intros targets s Hts Hnone.
    destruct (findMulti_spec targets s Hts) as
      [(i & pre & post & s' & E & Hin & Hne & R & p & Hk & He & Hord & Hmin)
      |(s' & E & R & Hno)].
    - exfalso. apply (Hnone p); [now apply nth_error_In with i|].
      destruct He as [u Hu]. cbn [app] in Hu.
      exists u, post. now rewrite Hin, Hu, <- app_assoc.
    - now exists s'. }
  split; [exact H1|]. split.
  - intros target s Ht Hno.
    destruct (H1 [target_of target] s) as (s' & E & R).
    + constructor; [now apply target_of_fresh|constructor].
    + intros p [<-|[]]. now rewrite target_of_pattern.
    + exists s'. split; [|exact R]. unfold find, findUntil_len.
      fold (target_of target). now rewrite (bind_Some _ _ _ _ _ E).
  - intros target terminator s Ht Hterm Hno1 Hno2.
    destruct (H1 [target_of target; target_of terminator] s) as (s' & E & R).
    + constructor; [now apply target_of_fresh|].
      constructor; [now apply target_of_fresh|constructor].
    + intros p [<-|[<-|[]]]; now rewrite target_of_pattern.
    + exists s'. split; [|exact R]. unfold findUntil, findUntil_len.
      fold (target_of target). fold (target_of terminator).
      now rewrite (bind_Some _ _ _ _ _ E).
Qed.

Lemma findMulti_no_occurrence_witness :
  exists s',
    find (list_ascii_of_string "test")
      (Stream_on (list_ascii_of_string "This is a string"))
    = Some (false, s')
    /\ rx s' = [].
Proof.
  apply (proj1 (proj2 findMulti_no_occurrence)).
  - discriminate.
  - apply occursb_false. reflexivity.
Defined.

(** ** The test suite of the repository *)

(** [Stream-find-01]: [find(const char *target)]. *)
Example Stream_find_01 :
  option_map fst
    (then_readString (find (list_ascii_of_string "test"))
       (Stream_on (list_ascii_of_string "This is a test string")))
  = Some (true, list_ascii_of_string " string")
  /\ option_map fst
       (then_readString (find (list_ascii_of_string "test"))
          (Stream_on (list_ascii_of_string "This is a string")))
     = Some (false, []).
Proof. split; vm_compute; reflexivity. Qed.

(** [Stream-find-02]: [find(const char *target, size_t length)]. *)
Example Stream_find_02 :
  option_map fst
    (then_readString (find_len (list_ascii_of_string "test") 3)
       (Stream_on (list_ascii_of_string "This is a test string")))
  = Some (true, list_ascii_of_string "t string")
  /\ option_map fst
       (then_readString (find_len (list_ascii_of_string "test") 3)
          (Stream_on (list_ascii_of_string "This is a string")))
     = Some (false, []).
Proof. split; vm_compute; reflexivity. Qed.

(** [Stream-find-03]: [find(char target)]. *)
Example Stream_find_03 :
  option_map fst
    (then_readString (find_char "t"%char)
       (Stream_on (list_ascii_of_string "This is a test string")))
  = Some (true, list_ascii_of_string "est string")
  /\ option_map fst
       (then_readString (find_char "!"%char)
          (Stream_on (list_ascii_of_string "This is a string")))
     = Some (false, []).
Proof. split; vm_compute; reflexivity. Qed.

(** * Further properties of the bounded reads *)

Lemma timedRead_byte_code (c : ascii) : (int_of_char c <? 0) = false.
Proof.
  pose proof (int_of_char_range c) as H. apply Z.ltb_ge. lia.
Qed.

Lemma before_length (terminator : ascii) (l : list ascii) :
  (length (before terminator l) <= length l)%nat.
Proof.
  induction l as [|c l IH]; cbn [before]; [lia|].
  destruct (Ascii.eqb c terminator); simpl; lia.
Qed.

(** The loop of [readBytes] stores the first [min n (length (rx s))] bytes of
    the source from position [count] on and leaves the others. *)
Lemma readBytes_loop_spec : forall (n : nat) (buffer : list ascii)
    (count : nat) (s : Stream),
  exists s',
    readBytes_loop n buffer count s
    = Some ((count + Nat.min n (length (rx s)),
             poke_all buffer count (firstn (Nat.min n (length (rx s))) (rx s)))%nat,
            s')
    /\ rx s' = skipn (Nat.min n (length (rx s))) (rx s).
Proof.
  induction n as [|n IH]; intros buffer count s; cbn [readBytes_loop].
  - exists s. cbn. now rewrite Nat.add_0_r.
  - destruct (rx s) as [|c rest] eqn:Hrx.
    + destruct (timedRead_nil s Hrx) as (s1 & E1 & R1).
      rewrite (bind_Some _ _ _ _ _ E1). exists s1. cbn.
      now rewrite Nat.add_0_r.
    + destruct (timedRead_cons s c rest Hrx) as (s1 & E1 & R1).
      rewrite (bind_Some _ _ _ _ _ E1), timedRead_byte_code, char_of_int_of_char.
      destruct (IH (poke buffer count c) (S count) s1) as (s2 & E2 & R2).
      rewrite R1 in E2, R2. exists s2. split; [|exact R2].
      rewrite E2. cbn [length Nat.min firstn poke_all]. do 3 f_equal. lia.
Qed.

(** X1: [readBytes] stores the first [n = min length (bytes waiting)] bytes of
    the source at the start of the array, leaves the cells after them as they
    were, returns [n], and leaves the source at the byte after the ones it
    stored; it never takes more than [length] bytes. *)
Theorem readBytes_takes_min (buffer : list ascii) (length : nat)
    (s : Stream) :
  (Nat.min length (List.length (rx s)) <= List.length buffer)%nat ->
  exists s',
    readBytes buffer length s
    = Some ((Nat.min length (List.length (rx s)),
             firstn (Nat.min length (List.length (rx s))) (rx s)
             ++ skipn (Nat.min length (List.length (rx s))) buffer), s')
    /\ rx s' = skipn (Nat.min length (List.length (rx s))) (rx s).
Proof.
  intros Hroom. unfold readBytes.
  destruct (readBytes_loop_spec length buffer O s) as (s' & E & R).
  exists s'. split; [|exact R]. rewrite E. cbn [Nat.add].
  rewrite poke_all_front.
  - rewrite length_firstn.
    now rewrite (Nat.min_l (Nat.min length (List.length (rx s)))
                   (List.length (rx s))) by apply Nat.le_min_r.
  - rewrite length_firstn. lia.
Qed.

Lemma readBytes_takes_min_witness :
  exists s',
    readBytes (repeat "000"%char 4) 3 (Stream_on (list_ascii_of_string "hello"))
    = Some ((3%nat, list_ascii_of_string "hel" ++ ["000"%char]), s')
    /\ rx s' = list_ascii_of_string "lo".
Proof.
  apply (readBytes_takes_min (repeat "000"%char 4) 3
           (Stream_on (list_ascii_of_string "hello"))).
  simpl. lia.
Defined.

(** The loop of [readBytesUntil] on any source. *)
Lemma readBytesUntil_loop_spec (terminator : ascii) : forall (n : nat)
    (buffer : list ascii) (index : nat) (s : Stream),
  exists s',
    readBytesUntil_loop n terminator buffer index s
    = Some ((index + Nat.min n (length (before terminator (rx s))),
             poke_all buffer index
               (firstn (Nat.min n (length (before terminator (rx s))))
                       (before terminator (rx s))))%nat,
            s')
    /\ rx s' = if (n <=? length (before terminator (rx s)))%nat
               then skipn n (rx s)
               else skipn (S (length (before terminator (rx s)))) (rx s).
Proof.
  induction n as [|n IH]; intros buffer index s; cbn [readBytesUntil_loop].
  - exists s. cbn. now rewrite Nat.add_0_r.
  - destruct (rx s) as [|c rest] eqn:Hrx.
    + destruct (timedRead_nil s Hrx) as (s1 & E1 & R1).
      rewrite (bind_Some _ _ _ _ _ E1). exists s1. cbn.
      now rewrite Nat.add_0_r.
    + destruct (timedRead_cons s c rest Hrx) as (s1 & E1 & R1).
      rewrite (bind_Some _ _ _ _ _ E1), timedRead_byte_code, is_ignore_char.
      cbn [orb before]. destruct (Ascii.eqb c terminator) eqn:Ec.
      * exists s1. cbn. now rewrite Nat.add_0_r.
      * rewrite char_of_int_of_char.
        destruct (IH (poke buffer index c) (S index) s1) as (s2 & E2 & R2).
        rewrite R1 in E2, R2. exists s2. split.
        -- rewrite E2. cbn [length Nat.min firstn poke_all]. do 3 f_equal. lia.
        -- rewrite R2. cbn [length Nat.leb skipn]. reflexivity.
Qed.

Lemma before_prefix (terminator : ascii) (l : list ascii) (m : nat) :
  (m <= length (before terminator l))%nat ->
  firstn m (before terminator l) = firstn m l.
Proof.
  revert m. induction l as [|c l IH]; intros m Hm; cbn [before] in *.
  - simpl in Hm. now destruct m.
  - destruct (Ascii.eqb c terminator).
    + simpl in Hm. assert (m = O) by lia. subst. reflexivity.
    + destruct m as [|m]; [reflexivity|]. cbn [firstn]. f_equal.
      apply IH. simpl in Hm. lia.
Qed.

(** X2: [readBytesUntil] on any source.  With [pre] the bytes before the
    first terminator (all of them when there is none), it stores the first
    [n = min length (length pre)] bytes and returns [n].  When the bound is
    reached before the terminator, the source is left right after the [length]
    bytes stored and the terminator stays in it; otherwise the source is left
    after the terminator, or empty when it held none. *)
Theorem readBytesUntil_any_source (terminator : ascii) (buffer : list ascii)
    (length : nat) (s : Stream) :
  (Nat.min length (List.length (before terminator (rx s)))
   <= List.length buffer)%nat ->
  exists s',
    readBytesUntil terminator buffer length s
    = Some ((Nat.min length (List.length (before terminator (rx s))),
             firstn (Nat.min length (List.length (before terminator (rx s))))
                    (rx s)
             ++ skipn (Nat.min length (List.length (before terminator (rx s))))
                      buffer), s')
    /\ rx s' = if (length <=? List.length (before terminator (rx s)))%nat
               then skipn length (rx s)
               else skipn (S (List.length (before terminator (rx s)))) (rx s).
Proof.
  intros Hroom. unfold readBytesUntil.
  destruct (readBytesUntil_loop_spec terminator length buffer O s)
    as (s' & E & R).
  exists s'. split; [|exact R]. rewrite E. cbn [Nat.add].
  rewrite before_prefix by lia. rewrite poke_all_front.
  - rewrite length_firstn.
    pose proof (before_length terminator (rx s)) as Hb.
    now rewrite (Nat.min_l _ (List.length (rx s))) by lia.
  - rewrite length_firstn. lia.
Qed.

Lemma readBytesUntil_any_source_witness :
  exists s',
    readBytesUntil ","%char (repeat "000"%char 2) 2
      (Stream_on (list_ascii_of_string "ab,cd"))
    = Some ((2%nat, list_ascii_of_string "ab"), s')
    /\ rx s' = list_ascii_of_string ",cd".
Proof.
  apply (readBytesUntil_any_source ","%char (repeat "000"%char 2) 2
           (Stream_on (list_ascii_of_string "ab,cd"))).
  simpl. lia.
Defined.

(** * Further properties of the string reads *)

(** The loop of [readString] from a byte just read: it appends that byte and
    every byte still in the source. *)
Lemma readString_loop_spec : forall (l : list ascii) (fuel : nat) (c0 : ascii)
    (acc : list ascii) (s : Stream),
  rx s = l -> (S (length l) < fuel)%nat ->
  exists s',
    readString_loop fuel (int_of_char c0) acc s = Some (acc ++ c0 :: l, s')
    /\ rx s' = [].
Proof.
  induction l as [|c l IH]; intros fuel c0 acc s Hrx Hfuel;
    (destruct fuel as [|fuel]; [simpl in Hfuel; lia|]);
    cbn [readString_loop];
    pose proof (timedRead_byte_code c0) as Hc0; apply Z.ltb_ge in Hc0;
    apply Z.leb_le in Hc0; rewrite Hc0, char_of_int_of_char.
  - destruct (timedRead_nil s Hrx) as (s1 & E1 & R1).
    rewrite (bind_Some _ _ _ _ _ E1).
    destruct fuel as [|fuel]; [simpl in Hfuel; lia|].
    exists s1. split; [reflexivity|exact R1].
  - destruct (timedRead_cons s c l Hrx) as (s1 & E1 & R1).
    rewrite (bind_Some _ _ _ _ _ E1).
    destruct (IH fuel c (acc ++ [c0]) s1 R1) as (s2 & E2 & R2).
    { simpl in Hfuel. lia. }
    exists s2. split; [|exact R2]. rewrite E2, <- app_assoc. reflexivity.
Qed.

Lemma readString_spec (s : Stream) :
  exists s', readString s = Some (rx s, s') /\ rx s' = [].
Proof.
  unfold readString. unfold bind at 1, gets at 1.
  destruct (rx s) as [|c l] eqn:Hrx.
  - destruct (timedRead_nil s Hrx) as (s1 & E1 & R1).
    rewrite (bind_Some _ _ _ _ _ E1). exists s1.
    split; [reflexivity|exact R1].
  - destruct (timedRead_cons s c l Hrx) as (s1 & E1 & R1).
    rewrite (bind_Some _ _ _ _ _ E1).
    destruct (readString_loop_spec l (S (length (c :: l))) c [] s1 R1)
      as (s2 & E2 & R2).
    { simpl. lia. }
    exists s2. split; [exact E2|exact R2].
Qed.

(** X3: [readString] returns every byte that the source holds, in order, and
    leaves the source empty. *)
Theorem readString_returns_all (s : Stream) :
  exists s', readString s = Some (rx s, s') /\ rx s' = [].
Proof. apply readString_spec. Qed.

(** The loop of [readStringUntil] from a byte just read. *)
Lemma readStringUntil_loop_spec (terminator : ascii) : forall (l : list ascii)
    (fuel : nat) (c0 : ascii) (acc : list ascii) (s : Stream),
  rx s = l -> (S (length l) < fuel)%nat ->
  exists s',
    readStringUntil_loop fuel terminator (int_of_char c0) acc s
    = Some (acc ++ before terminator (c0 :: l), s')
    /\ rx s' = skipn (length (before terminator (c0 :: l))) l.
Proof.
  induction l as [|c l IH]; intros fuel c0 acc s Hrx Hfuel;
    (destruct fuel as [|fuel]; [simpl in Hfuel; lia|]);
    cbn [readStringUntil_loop before];
    pose proof (timedRead_byte_code c0) as Hc0; apply Z.ltb_ge in Hc0;
    apply Z.leb_le in Hc0; rewrite Hc0, is_ignore_char; cbn [andb];
    (destruct (Ascii.eqb c0 terminator) eqn:Ec; cbn [negb];
     [exists s; split; [now rewrite app_nil_r|exact Hrx]|]);
    rewrite char_of_int_of_char.
  - destruct (timedRead_nil s Hrx) as (s1 & E1 & R1).
    rewrite (bind_Some _ _ _ _ _ E1).
    destruct fuel as [|fuel]; [simpl in Hfuel; lia|].
    exists s1. split; [reflexivity|exact R1].
  - destruct (timedRead_cons s c l Hrx) as (s1 & E1 & R1).
    rewrite (bind_Some _ _ _ _ _ E1).
    destruct (IH fuel c (acc ++ [c0]) s1 R1) as (s2 & E2 & R2).
    { simpl in Hfuel. lia. }
    exists s2. split.
    + rewrite E2, <- app_assoc. reflexivity.
    + rewrite R2. reflexivity.
Qed.

(** X4: [readStringUntil] returns the bytes before the first terminator (all
    of them when the source holds none), consumes the terminator without
    returning it, and leaves the source at the byte after it. *)
Theorem readStringUntil_returns_before (terminator : ascii) (s : Stream) :
  exists s',
    readStringUntil terminator s = Some (before terminator (rx s), s')
    /\ rx s' = skipn (S (length (before terminator (rx s)))) (rx s).
Proof.
  unfold readStringUntil. unfold bind at 1, gets at 1.
  destruct (rx s) as [|c l] eqn:Hrx.
  - destruct (timedRead_nil s Hrx) as (s1 & E1 & R1).
    rewrite (bind_Some _ _ _ _ _ E1). exists s1.
    split; [reflexivity|exact R1].
  - destruct (timedRead_cons s c l Hrx) as (s1 & E1 & R1).
    rewrite (bind_Some _ _ _ _ _ E1).
    destruct (readStringUntil_loop_spec terminator l (S (length (c :: l))) c []
                s1 R1) as (s2 & E2 & R2).
    { simpl. lia. }
    exists s2. split; [exact E2|exact R2].
Qed.

(** * Further properties of the lookahead and of parseInt *)

Lemma take_while_all (f : ascii -> bool) (l : list ascii) :
  forallb f (take_while f l) = true.
Proof.
  induction l as [|a l IH]; cbn [take_while]; [reflexivity|].
  destruct (f a) eqn:E; [|reflexivity]. cbn [forallb]. now rewrite E.
Qed.

Lemma take_drop_while (f : ascii -> bool) (l : list ascii) :
  l = take_while f l ++ drop_while f l.
Proof.
  unfold drop_while. induction l as [|a l IH]; cbn [take_while]; [reflexivity|].
  destruct (f a); [|reflexivity]. cbn [length skipn app]. now rewrite <- IH.
Qed.

(** The byte after the longest run that passes a test fails it. *)
Lemma drop_while_head (f : ascii -> bool) (l : list ascii) (a : ascii)
    (rest : list ascii) :
  drop_while f l = a :: rest -> f a = false.
Proof.
  unfold drop_while. induction l as [|b l IH]; cbn [take_while]; [discriminate|].
  destruct (f b) eqn:E.
  - cbn [length skipn]. exact IH.
  - cbn [length skipn]. intros H. injection H as <- _. exact E.
Qed.

(** The digit lookahead as a function of the bytes that the source holds. *)
Lemma peekNextDigit_spec (la : LookaheadMode) (dd : bool) (s : Stream) :
  exists s',
    peekNextDigit la dd s
    = Some (match drop_while (skippable la dd) (rx s) with
            | [] => -1
            | a :: _ => if numeric_start dd a then int_of_char a else -1
            end, s')
    /\ rx s' = drop_while (skippable la dd) (rx s).
Proof.
  pose proof (take_drop_while (skippable la dd) (rx s)) as Hsplit.
  pose proof (take_while_all (skippable la dd) (rx s)) as Hall.
  assert (Hfuel : (length (take_while (skippable la dd) (rx s))
                   < S (length (rx s)))%nat).
  { rewrite Hsplit at 2. rewrite length_app. lia. }
  unfold peekNextDigit, bind, gets.
  destruct (drop_while (skippable la dd) (rx s)) as [|a rest] eqn:Hrest.
  - rewrite app_nil_r in Hsplit.
    apply (peekNextDigit_loop_dry la dd _ _ s Hsplit Hall Hfuel).
  - pose proof (drop_while_head _ _ _ _ Hrest) as Ha.
    destruct (numeric_start dd a) eqn:Hn.
    + apply (peekNextDigit_loop_found la dd _ _ s a rest Hsplit Hall Hn Hfuel).
    + apply (peekNextDigit_loop_rejected la dd _ _ s a rest Hsplit Hall Hn Ha
               Hfuel).
Qed.

(** X5: the digit lookahead on any source.  It discards the longest run of
    bytes that its policy lets it skip and stops at the byte [a] after them,
    which stays in the source; it returns [a] when [a] can start a number,
    and -1 when it cannot or when the source has run dry. *)
Theorem peekNextDigit_any_source (la : LookaheadMode) (dd : bool)
    (s : Stream) :
  exists s',
    peekNextDigit la dd s
    = Some (match drop_while (skippable la dd) (rx s) with
            | [] => -1
            | a :: _ => if numeric_start dd a then int_of_char a else -1
            end, s')
    /\ rx s' = drop_while (skippable la dd) (rx s).
Proof. apply peekNextDigit_spec. Qed.

(** X6: [parseInt] on any source, for an ignore character other than the
    byte 255: it returns, and both the value and the bytes left unread are
    those of [parseInt_bytes].  The lookahead's discards are consumed even
    when no number follows; a byte that cannot start a number is left
    unread and the value is 0; a token runs to the first byte that is
    neither a digit nor the ignore character, or to the end of the source. *)
Theorem parseInt_any_source (la : LookaheadMode) (ignore : ascii)
    (s : Stream) :
  Ascii.eqb "255"%char ignore = false ->
  exists s',
    parseInt la ignore s = Some (fst (parseInt_bytes la ignore (rx s)), s')
    /\ rx s' = snd (parseInt_bytes la ignore (rx s)).
Proof.
  intros Hig. unfold parseInt_bytes.
  pose proof (take_drop_while (skippable la false) (rx s)) as Hsplit.
  pose proof (take_while_all (skippable la false) (rx s)) as Hall.
  destruct (peekNextDigit_spec la false s) as (s1 & E1 & R1).
  destruct (drop_while (skippable la false) (rx s)) as [|c0 l2] eqn:Hrest.
  - exists s1. split; [|exact R1]. unfold parseInt.
    now rewrite (bind_Some _ _ _ _ _ E1).
  - destruct (numeric_start false c0) eqn:Hn.
    + cbn [fst snd].
      pose proof (take_drop_while (int_more ignore) l2) as Hsplit2.
      rewrite Hsplit2 in Hsplit at 1.
      apply (parseInt_token la ignore _ c0 _ _ s Hsplit Hall Hn).
      * apply take_while_all.
      * destruct (drop_while (int_more ignore) l2) as [|d tail] eqn:Htail;
          cbn [int_stop].
        -- now rewrite Hig.
        -- now rewrite (drop_while_head _ _ _ _ Htail).
    + exists s1. split; [|exact R1]. unfold parseInt.
      now rewrite (bind_Some _ _ _ _ _ E1).
Qed.

Lemma parseInt_any_source_witness :
  exists s',
    parseInt SKIP_WHITESPACE NO_IGNORE_CHAR
      (Stream_on (list_ascii_of_string "  x42"))
    = Some (0, s')
    /\ rx s' = list_ascii_of_string "x42".
Proof.
  apply (parseInt_any_source SKIP_WHITESPACE NO_IGNORE_CHAR
           (Stream_on (list_ascii_of_string "  x42"))).
  reflexivity.
Defined.

Lemma digit_char_range (d : ascii) :
  digit_char d = true -> 0 <= int_of_char d - ch "0" <= 9.
Proof.
  unfold digit_char, isdigit. intros H. apply andb_true_iff in H as [H1 H2].
  apply Z.leb_le in H1, H2. change (ch "0") with 48 in *.
  change (ch "9") with 57 in H2. lia.
Qed.

Lemma dec_from_bounds : forall (ds : list ascii) (v : Z),
  forallb digit_char ds = true -> 0 <= v ->
  0 <= dec_from v ds < (v + 1) * 10 ^ Z.of_nat (length ds).
Proof.
  induction ds as [|d ds IH]; intros v Hds Hv.
  - cbn. lia.
  - simpl in Hds. apply andb_true_iff in Hds as [Hd Hds].
    pose proof (digit_char_range d Hd) as Hr.
    change (dec_from v (d :: ds))
      with (dec_from (v * 10 + (int_of_char d - ch "0")) ds).
    destruct (IH (v * 10 + (int_of_char d - ch "0")) Hds) as [H0 H1]; [lia|].
    split; [exact H0|].
    replace (Z.of_nat (length (d :: ds))) with (Z.succ (Z.of_nat (length ds)))
      by (simpl length; lia).
    rewrite Z.pow_succ_r by lia.
    assert (Hp : 0 < 10 ^ Z.of_nat (length ds)) by (apply Z.pow_pos_nonneg; lia).
    nia.
Qed.

Lemma counted_digits (ignore : ascii) (l : list ascii) :
  forallb digit_char (filter (counted ignore) l) = true.
Proof.
  apply forallb_forall. intros a Ha. apply filter_In in Ha as [_ Ha].
  unfold counted in Ha. now apply andb_true_iff in Ha as [Ha _].
Qed.

(** X7: a token with at most nine counted digits is parsed exactly: [parseInt]
    returns the decimal value of the digits, negated for a leading sign,
    with no wrap-around, and its magnitude is below 10^9. *)
Theorem parseInt_exact_up_to_nine_digits (la : LookaheadMode) (ignore : ascii)
    (pre : list ascii) (c0 : ascii) (body tail : list ascii) (s : Stream) :
  rx s = pre ++ c0 :: body ++ tail ->
  forallb (skippable la false) pre = true ->
  numeric_start false c0 = true ->
  forallb (int_more ignore) body = true ->
  int_stop ignore tail = true ->
  (length (filter (counted ignore) (c0 :: body)) <= 9)%nat ->
  exists s',
    parseInt la ignore s
    = Some (if negative_start ignore c0
            then - dec_value (filter (counted ignore) (c0 :: body))
            else dec_value (filter (counted ignore) (c0 :: body)), s')
    /\ rx s' = tail
    /\ 0 <= dec_value (filter (counted ignore) (c0 :: body)) < 10 ^ 9.
Proof.
  intros Hrx Hpre Hc0 Hbody Hstop Hnine.
  destruct (parseInt_token la ignore pre c0 body tail s Hrx Hpre Hc0 Hbody Hstop)
    as (s' & E & R).
  pose proof (dec_from_bounds (filter (counted ignore) (c0 :: body)) 0
                (counted_digits ignore (c0 :: body)) (Z.le_refl 0)) as Hb.
  fold (dec_value (filter (counted ignore) (c0 :: body))) in Hb.
  assert (Hpow : 10 ^ Z.of_nat (length (filter (counted ignore) (c0 :: body)))
                 <= 10 ^ 9).
  { apply Z.pow_le_mono_r; lia. }
  assert (Hlt : 0 <= dec_value (filter (counted ignore) (c0 :: body)) < 10 ^ 9)
    by lia.
  exists s'. split; [|split; [exact R|exact Hlt]].
  rewrite E. f_equal. f_equal. apply long_small.
  change (10 ^ 9) with 1000000000 in Hlt. change (2 ^ 31) with 2147483648.
  destruct (negative_start ignore c0); lia.
Qed.

Lemma parseInt_exact_up_to_nine_digits_witness :
  exists s',
    parseInt SKIP_ALL ","%char
      (Stream_on (list_ascii_of_string "n=-999,999,999;"))
    = Some (-999999999, s')
    /\ rx s' = list_ascii_of_string ";"
    /\ 0 <= 999999999 < 10 ^ 9.
Proof.
  apply (parseInt_exact_up_to_nine_digits SKIP_ALL ","%char
           (list_ascii_of_string "n=") "-"%char
           (list_ascii_of_string "999,999,999") (list_ascii_of_string ";"));
    reflexivity.
Defined.

(** * The ignore character 255 *)

(** On a source that has run dry, the loop of [parseInt] with the ignore
    character 255 takes the timeout code for that character and goes
    round again, whatever the budget. *)
Lemma parseInt_loop_dry_255 : forall (fuel : nat) (c : Z) (acc : bool * Z)
    (s : Stream),
  rx s = [] -> parseInt_loop fuel "255"%char c acc s = None.
Proof.
  induction fuel as [|fuel IH]; intros c acc s Hrx; [reflexivity|].
  cbn [parseInt_loop]. unfold bind at 1. unfold read at 1. rewrite Hrx.
  destruct (timedPeek_nil s Hrx) as (s1 & E1 & R1).
  rewrite (bind_Some _ _ _ _ _ E1), parseInt_more_timeout.
  cbn [Ascii.eqb Bool.eqb]. now apply IH.
Qed.

Lemma parseFloat_loop_dry_255 : forall (fuel : nat) (c : Z) (acc : FloatAcc)
    (s : Stream),
  rx s = [] -> parseFloat_loop fuel "255"%char c acc s = None.
Proof.
  induction fuel as [|fuel IH]; intros c acc s Hrx; [reflexivity|].
  cbn [parseFloat_loop]. unfold bind at 1. unfold read at 1. rewrite Hrx.
  destruct (timedPeek_nil s Hrx) as (s1 & E1 & R1).
  rewrite (bind_Some _ _ _ _ _ E1), parseFloat_more_timeout.
  cbn [Ascii.eqb Bool.eqb]. now apply IH.
Qed.

(** X8: with the byte 255 as the ignore character, a token that runs to the
    end of the source is never finished: the timeout code -1, cast to [char],
    equals the ignore character, so the loops of [parseInt] and [parseFloat]
    go on waiting; no budget of rounds lets them return. *)
Theorem ignore_255_never_returns (c0 : ascii) (run : list ascii)
    (s : Stream) :
  rx s = c0 :: run ->
  (forallb (int_more "255"%char) run = true ->
   forall fuel acc,
     parseInt_loop fuel "255"%char (int_of_char c0) acc s = None)
  /\ (forall acc,
        float_run "255"%char (parseFloat_step "255"%char (int_of_char c0) acc)
          run = true ->
        forall fuel,
          parseFloat_loop fuel "255"%char (int_of_char c0) acc s = None).
Proof.
  revert c0 s. induction run as [|c1 run IH]; intros c0 s Hrx.
  - split.
    + intros _ fuel acc. destruct fuel as [|fuel]; [reflexivity|].
      cbn [parseInt_loop].
      destruct (read_cons s _ _ Hrx) as (s1 & E1 & R1).
      rewrite (bind_Some _ _ _ _ _ E1).
      destruct (timedPeek_nil s1 R1) as (s2 & E2 & R2).
      rewrite (bind_Some _ _ _ _ _ E2), parseInt_more_timeout.
      cbn [Ascii.eqb Bool.eqb]. now apply parseInt_loop_dry_255.
    + intros acc _ fuel. destruct fuel as [|fuel]; [reflexivity|].
      cbn [parseFloat_loop].
      destruct (read_cons s _ _ Hrx) as (s1 & E1 & R1).
      rewrite (bind_Some _ _ _ _ _ E1).
      destruct (timedPeek_nil s1 R1) as (s2 & E2 & R2).
      rewrite (bind_Some _ _ _ _ _ E2), parseFloat_more_timeout.
      cbn [Ascii.eqb Bool.eqb]. now apply parseFloat_loop_dry_255.
  - destruct (read_cons s _ _ Hrx) as (s1 & E1 & R1).
    destruct (timedPeek_cons s1 _ _ R1) as (s2 & E2 & R2).
    destruct (IH c1 s2 R2) as [IHi IHf]. split.
    + intros Hrun fuel acc. simpl in Hrun.
      apply andb_true_iff in Hrun as [Hc1 Hrun].
      destruct fuel as [|fuel]; [reflexivity|]. cbn [parseInt_loop].
      rewrite (bind_Some _ _ _ _ _ E1), (bind_Some _ _ _ _ _ E2).
      rewrite parseInt_more_char, Hc1. now apply IHi.
    + intros acc Hrun fuel. cbn [float_run] in Hrun.
      apply andb_true_iff in Hrun as [Hc1 Hrun].
      destruct fuel as [|fuel]; [reflexivity|]. cbn [parseFloat_loop].
      rewrite (bind_Some _ _ _ _ _ E1), (bind_Some _ _ _ _ _ E2), Hc1.
      now apply IHf.
Qed.

Lemma ignore_255_never_returns_witness :
  parseInt_loop 1000 "255"%char (int_of_char "4"%char) (false, 0)
    (Stream_on (list_ascii_of_string "42")) = None.
Proof.
  apply (proj1 (ignore_255_never_returns "4"%char (list_ascii_of_string "2")
                  (Stream_on (list_ascii_of_string "42")) eq_refl)).
  reflexivity.
Defined.

(** * The sign of parseFloat *)

(** Rounding to [float] commutes with the change of sign. *)
Lemma float_of_double_neg (x : double) :
  float_of_double (dneg x) = SFopp (float_of_double x).
Proof.
  destruct x as [sx|sx| |sx m e]; try reflexivity.
  cbn [dneg SFopp float_of_double]. unfold binary_round.
  destruct (shl_align m e _) as [mz ez]. unfold binary_round_aux.
  destruct (shr_fexp 24 128 (Z.pos mz) ez loc_Exact) as [mrs' e'].
  destruct (shr_fexp 24 128 _ e' loc_Exact) as [mrs'' e''].
  destruct (shr_m mrs''); [reflexivity| |reflexivity].
  destruct (e'' <=? 128 - 24); reflexivity.
Qed.

(** The accumulator after digits, a decimal point and digits, from any state
    that has seen no decimal point and no fractional digit. *)
Lemma float_acc_decimal_from (ignore : ascii) (ints fracs : list ascii)
    (a : FloatAcc) :
  forallb digit_char ints = true -> no_ignore ignore ints = true ->
  forallb digit_char fracs = true -> no_ignore ignore fracs = true ->
  Ascii.eqb "."%char ignore = false ->
  isFraction a = false -> fraction a = double_of_int 1 ->
  float_acc ignore (ints ++ "."%char :: fracs) a
  = mkFloatAcc (isNegative a) true
      (double_frac_part (double_int_part (value a) ints) O fracs)
      (scale (length fracs))
  /\ float_run ignore a (ints ++ "."%char :: fracs) = true.
Proof.
  intros Hi1 Hi2 Hf1 Hf2 Hp Hfr Hsc. split.
  - rewrite float_acc_app, (float_acc_int_part _ _ a Hi1 Hi2 Hfr).
    rewrite float_acc_cons. fold (ch ".").
    rewrite (parseFloat_step_point _ _ Hp).
    rewrite (float_acc_frac_part _ _ O) by auto. reflexivity.
  - rewrite float_run_app, (float_run_digits _ _ _ Hi1).
    rewrite (float_acc_int_part _ _ a Hi1 Hi2 Hfr).
    cbn [float_run andb]. rewrite (float_run_digits _ _ _ Hf1).
    reflexivity.
Qed.

(** X9: a minus sign in front of a token of digits, a decimal point and
    digits negates the result of [parseFloat]: the value returned is the
    opposite of the [float] that the token without the sign is parsed to, and
    the source is left at the byte that ends the token. *)
Theorem parseFloat_leading_minus (la : LookaheadMode) (ignore : ascii)
    (pre ints fracs : list ascii) (d : ascii) (rest : list ascii)
    (s : Stream) :
  rx s = pre ++ "-"%char :: (ints ++ "."%char :: fracs) ++ d :: rest ->
  forallb (skippable la true) pre = true ->
  forallb digit_char ints = true ->
  forallb digit_char fracs = true ->
  no_ignore ignore ("-"%char :: ints ++ "."%char :: fracs ++ [d]) = true ->
  digit_char d = false ->
  exists s',
    parseFloat la ignore s
    = Some (SFopp (float_of_double
                     (double_frac_part
                        (double_int_part (double_of_int 0) ints) O fracs)), s')
    /\ rx s' = d :: rest.
Proof.
  intros Hrx Hpre Hints Hfracs Hig Hd.
  unfold no_ignore in Hig. cbn [forallb] in Hig.
  apply andb_true_iff in Hig as [Hm Hig]. apply negb_true_iff in Hm.
  rewrite forallb_app in Hig.
  apply andb_true_iff in Hig as [Hig1 Hig2]. cbn [forallb] in Hig2.
  apply andb_true_iff in Hig2 as [Hp Hig2]. apply negb_true_iff in Hp.
  rewrite forallb_app in Hig2. apply andb_true_iff in Hig2 as [Hig2 Hig3].
  cbn [forallb] in Hig3. rewrite andb_true_r in Hig3.
  apply negb_true_iff in Hig3.
  assert (Hstep : parseFloat_step ignore (int_of_char "-"%char) FloatAcc0
                  = mkFloatAcc true false (double_of_int 0) (double_of_int 1)).
  { unfold parseFloat_step. now rewrite is_ignore_char, Hm. }
  destruct (float_acc_decimal_from ignore ints fracs
              (mkFloatAcc true false (double_of_int 0) (double_of_int 1))
              Hints Hig1 Hfracs Hig2 Hp eq_refl eq_refl) as [Hacc Hrun].
  destruct (parseFloat_token la ignore pre "-"%char (ints ++ "."%char :: fracs)
              (d :: rest) s Hrx Hpre eq_refl) as (s' & E & R).
  - now rewrite Hstep.
  - rewrite float_acc_cons, Hstep, Hacc. cbn [float_stop]. unfold parseFloat_more.
    unfold digit_char in Hd. rewrite Hd, is_ignore_char, Hig3.
    cbn [isFraction negb]. now rewrite andb_false_r.
  - rewrite float_acc_cons, Hstep, Hacc in E. cbn [isNegative value] in E.
    rewrite float_of_double_neg in E. exists s'. split; [exact E|exact R].
Qed.

Lemma parseFloat_leading_minus_witness :
  exists s',
    parseFloat SKIP_ALL NO_IGNORE_CHAR
      (Stream_on (list_ascii_of_string "t=-0.25;"))
    = Some (SFopp (float_literal 1 4), s')
    /\ rx s' = list_ascii_of_string ";".
Proof.
  apply (parseFloat_leading_minus SKIP_ALL NO_IGNORE_CHAR
           (list_ascii_of_string "t=") (list_ascii_of_string "0")
           (list_ascii_of_string "25") ";"%char []);
    reflexivity.
Defined.

(** * Further properties of the search *)











(** Of two prefixes of one text, one extends the other. *)
Lemma prefixes_compare : forall (pre post pre' post' : list ascii),
  pre ++ post = pre' ++ post' ->
  (exists x, pre = pre' ++ x /\ post' = x ++ post)
  \/ (exists x, pre' = pre ++ x /\ post = x ++ post').
Proof.
  induction pre as [|a pre IH]; intros post pre' post' H.
  - right. exists pre'. now split.
  - destruct pre' as [|b pre'].
    + left. exists (a :: pre). now split.
    + injection H as <- H. destruct (IH _ _ _ H) as [(x & -> & E)|(x & -> & E)].
      * left. now exists x.
      * right. now exists x.
Qed.

Lemma ends_with_occurs (q u x : list ascii) :
  ends_with u q -> occurs_in q (u ++ x).
Proof. intros [v ->]. exists v, x. now rewrite <- app_assoc. Qed.

(** The first hit of a search is where the first occurrence ends: a prefix
    [pre] of the source that some pattern ends, with no pattern occurring
    before its last byte, is the prefix that the first hit consumes. *)
Lemma first_hit_unique (ps : list (list ascii)) (pre post pre' post' : list ascii)
    (i : nat) (q : list ascii) :
  (forall p, In p ps -> p <> []) ->
  pre ++ post = pre' ++ post' ->
  In q ps -> ends_with pre q ->
  (forall p, In p ps -> ~ occurs_in p (removelast pre)) ->
  pre' <> [] -> first_hit ps [] pre' i ->
  pre' = pre /\ post' = post.
Proof.
  intros Hne Heq Hq Hend Hfirst Hpre' (p & Hk & He & Hord & Hmin).
  cbn [app] in He, Hmin.
  assert (Hp : In p ps) by now apply nth_error_In with i.
  assert (Hpre : pre <> []).
  { intros ->. apply ends_with_nil in Hend. now apply (Hne q Hq). }
  destruct (prefixes_compare _ _ _ _ Heq) as [(x & E1 & E2)|(x & E1 & E2)].
  - destruct x as [|a x].
    + rewrite app_nil_r in E1. subst pre'. now split.
    + exfalso. apply (Hfirst p Hp). subst pre.
      rewrite removelast_app by discriminate.
      now apply ends_with_occurs.
  - destruct x as [|a x].
    + rewrite app_nil_r in E1. subst pre'. now split.
    + exfalso. apply (Hmin pre (a :: x) q E1); auto. discriminate.
Qed.

Lemma after_first_found : forall (u p post : list ascii),
  p <> [] -> ~ occurs_in p (removelast (u ++ p)) ->
  after_first p ((u ++ p) ++ post) = post.
Proof.
  induction u as [|a u IH]; intros p post Hp Hfirst.
  - cbn [app]. destruct p as [|b p]; [contradiction|].
    assert (Hpre : prefixb (b :: p) ((b :: p) ++ post) = true).
    { apply prefixb_spec. now exists post. }
    cbn [after_first app] in *. rewrite Hpre.
    change (b :: p ++ post) with ((b :: p) ++ post).
    rewrite skipn_app, skipn_all, Nat.sub_diag. reflexivity.
  - cbn [app after_first].
    destruct (prefixb p (a :: (u ++ p) ++ post)) eqn:Hpre.
    + exfalso. apply Hfirst. apply prefixb_spec in Hpre as [v Hv].
      change (a :: (u ++ p) ++ post) with (((a :: u) ++ p) ++ post) in Hv.
      destruct (prefixes_compare _ _ _ _ Hv) as [(x & E1 & E2)|(x & E1 & E2)].
      * destruct x as [|b x].
        -- exfalso. rewrite app_nil_r in E1.
           apply (f_equal (@length ascii)) in E1. rewrite length_app in E1.
           simpl in E1. lia.
        -- rewrite E1, removelast_app by discriminate.
           exists [], (removelast (b :: x)). reflexivity.
      * exfalso. apply (f_equal (@length ascii)) in E1.
        rewrite !length_app in E1. simpl in E1. lia.
    + apply IH; [exact Hp|]. intros (v & w & Hocc). apply Hfirst.
      cbn [app]. destruct (u ++ p) as [|b l] eqn:El.
      * destruct u; [cbn in El; contradiction|discriminate].
      * cbn [removelast]. exists (a :: v), w. cbn [app]. now rewrite <- Hocc.
Qed.

Lemma after_first_none (p : list ascii) : forall text : list ascii,
  occursb p text = false -> after_first p text = [].
Proof.
  induction text as [|b text IH]; cbn [occursb after_first]; intros H;
    apply orb_false_iff in H as [H1 H2]; rewrite H1; [reflexivity|].
  now apply IH.
Qed.

(** No pattern occurs before the last byte of the prefix that brings the
    first hit. *)
Lemma first_hit_first (ps : list (list ascii)) (pre : list ascii) (i : nat)
    (p : list ascii) :
  (forall q, In q ps -> q <> []) ->
  first_hit ps [] pre i -> In p ps -> ~ occurs_in p (removelast pre).
Proof.
  intros Hne (p0 & Hk & He & Hord & Hmin) Hp (u & v & Hocc).
  cbn [app] in Hmin.
  destruct pre as [|a pre].
  { cbn in Hocc. symmetry in Hocc. apply app_eq_nil in Hocc as [_ Hocc].
    apply app_eq_nil in Hocc as [Hocc _]. now apply (Hne p Hp). }
  pose proof (app_removelast_last a (l := a :: pre)) as Hlast.
  rewrite Hocc in Hlast.
  assert (Hne' : a :: pre <> []) by discriminate.
  specialize (Hlast Hne').
  apply (Hmin (u ++ p) (v ++ [last (a :: pre) a]) p).
  - rewrite Hlast at 1. now rewrite <- !app_assoc.
  - destruct v; discriminate.
  - intros E. apply app_eq_nil in E as [_ E]. now apply (Hne p Hp).
  - exact Hp.
  - now exists u.
Qed.

(** [find(target, length)] as a function of the bytes that the source
    holds. *)
Lemma find_len_spec (target : list ascii) (n : nat) (s : Stream) :
  (0 < n <= length target)%nat ->
  exists s',
    find_len target n s = Some (occursb (firstn n target) (rx s), s')
    /\ rx s' = after_first (firstn n target) (rx s).
Proof.
  intros Hn.
  assert (Hfresh : Forall fresh [mkMultiTarget target n 0]).
  { constructor; [|constructor]. split; [exact Hn|reflexivity]. }
  assert (Hne : forall q, In q [firstn n target] -> q <> []).
  { intros q [<-|[]] E. apply (f_equal (@length ascii)) in E.
    rewrite length_firstn in E. simpl in E. lia. }
  unfold find_len, findUntil_len.
  destruct (findMulti_spec _ s Hfresh) as
    [(i & pre & post & s' & E & Hin & Hpre & R & Hhit)|(s' & E & R & Hno)];
    rewrite (bind_Some _ _ _ _ _ E); exists s'; unfold ret;
    change (map pattern [mkMultiTarget target n 0]) with [firstn n target] in *.
  - pose proof (first_hit_first _ _ _ (firstn n target) Hne Hhit
                  (or_introl eq_refl)) as Hfirst.
    destruct Hhit as (p & Hk & He & Hord & Hmin). cbn [app] in He.
    destruct i as [|i]; [|destruct i; discriminate].
    injection Hk as <-. destruct He as [u Hu]. subst pre.
    assert (Hocc : occursb (firstn n target) (rx s) = true).
    { apply occursb_spec. rewrite Hin. exists u, post.
      now rewrite <- app_assoc. }
    rewrite Hocc, Hin, after_first_found; auto.
    apply (Hne _ (or_introl eq_refl)).
  - assert (Hocc : occursb (firstn n target) (rx s) = false).
    { destruct (occursb (firstn n target) (rx s)) eqn:Eo; [|reflexivity].
      exfalso. apply occursb_spec in Eo as (u & v & Eo).
      apply (Hno (u ++ firstn n target) v (firstn n target)).
      - now rewrite <- app_assoc.
      - intros E0. apply app_eq_nil in E0 as [_ E0].
        now apply (Hne _ (or_introl eq_refl)).
      - now left.
      - now exists u. }
    rewrite Hocc, (after_first_none _ _ Hocc). now split.
Qed.

(** X11: [find(target, length)] decides whether the first [length] bytes of
    the target occur in the bytes that the source holds: it returns true
    exactly when they do, and then leaves the source right after their first
    occurrence; otherwise the source is read to its end.  [find(target)] is
    the case where [length] is the length of the target. *)
Theorem find_decides_occurrence (target : list ascii) (n : nat) (s : Stream) :
  (0 < n <= length target)%nat ->
  exists s',
    find_len target n s = Some (occursb (firstn n target) (rx s), s')
    /\ rx s' = after_first (firstn n target) (rx s).
Proof. apply find_len_spec. Qed.

Lemma find_decides_occurrence_witness :
  exists s',
    find (list_ascii_of_string "ana")
      (Stream_on (list_ascii_of_string "bananas"))
    = Some (true, s')
    /\ rx s' = list_ascii_of_string "nas".
Proof.
  apply (find_decides_occurrence (list_ascii_of_string "ana") 3
           (Stream_on (list_ascii_of_string "bananas"))).
  simpl. lia.
Defined.

(** X12: [findUntil(target, terminator)] on the first of the two strings to
    be complete.  When a prefix [pre] of the source ends with the target and
    neither string occurs before its last byte, the call returns true; when
    [pre] ends with the terminator and not with the target, it returns
    false.  Either way the source is left right after [pre]; when both
    strings are complete on the same byte, the target wins. *)
Theorem findUntil_first_complete (target terminator : list ascii)
    (pre post : list ascii) (s : Stream) :
  target <> [] -> terminator <> [] ->
  rx s = pre ++ post ->
  ~ occurs_in target (removelast pre) ->
  ~ occurs_in terminator (removelast pre) ->
  (ends_with pre target ->
   exists s', findUntil target terminator s = Some (true, s') /\ rx s' = post)
  /\ (ends_with pre terminator -> ~ ends_with pre target ->
      exists s', findUntil target terminator s = Some (false, s')
                 /\ rx s' = post).
Proof.
  intros Ht Hterm Hrx Hno1 Hno2.
  assert (Hfresh : Forall fresh [target_of target; target_of terminator]).
  { constructor; [now apply target_of_fresh|].
    constructor; [now apply target_of_fresh|constructor]. }
  assert (Hps : map pattern [target_of target; target_of terminator]
                = [target; terminator]).
  { cbn [map]. now rewrite !target_of_pattern. }
  assert (Hne : forall q, In q [target; terminator] -> q <> []).
  { intros q [<-|[<-|[]]]; assumption. }
  assert (Hfirst : forall p, In p [target; terminator] ->
                     ~ occurs_in p (removelast pre)).
  { intros p [<-|[<-|[]]]; assumption. }
  assert (Hcase : forall q, In q [target; terminator] -> ends_with pre q ->
            exists (i : nat) (s' : Stream),
              findMulti [target_of target; target_of terminator] s
              = Some (Z.of_nat i, s')
              /\ rx s' = post /\ first_hit [target; terminator] [] pre i).
  { intros q Hq Hend.
    destruct (findMulti_spec _ s Hfresh) as
      [(i & pre' & post' & s' & E & Hin & Hpre' & R & Hhit)|(s' & E & R & Hno)];
      rewrite Hps in *.
    - rewrite Hrx in Hin.
      destruct (first_hit_unique _ _ _ _ _ i q Hne Hin Hq Hend Hfirst Hpre' Hhit)
        as [-> ->].
      now exists i, s'.
    - exfalso. apply (Hno pre post q Hrx); auto.
      intros ->. apply ends_with_nil in Hend. now apply (Hne q Hq). }
  unfold findUntil, findUntil_len.
  fold (target_of target). fold (target_of terminator). split.
  - intros Hend.
    destruct (Hcase target (or_introl eq_refl) Hend)
      as (i & s' & E & R & p & Hk & He & Hord & Hmin).
    rewrite (bind_Some _ _ _ _ _ E). exists s'. split; [|exact R].
    destruct i as [|i]; [reflexivity|]. exfalso.
    apply (Hord O target); [lia|reflexivity|exact Hend].
  - intros Hend Hnot.
    destruct (Hcase terminator (or_intror (or_introl eq_refl)) Hend)
      as (i & s' & E & R & p & Hk & He & Hord & Hmin).
    rewrite (bind_Some _ _ _ _ _ E). exists s'. split; [|exact R].
    destruct i as [|i]; [|reflexivity]. exfalso.
    injection Hk as <-. now apply Hnot.
Qed.

Lemma findUntil_first_complete_witness :
  exists s',
    findUntil (list_ascii_of_string "OK") (list_ascii_of_string "ERR")
      (Stream_on (list_ascii_of_string "AT ERROR OK"))
    = Some (false, s')
    /\ rx s' = list_ascii_of_string "OR OK".
Proof.
  destruct (findUntil_first_complete
              (list_ascii_of_string "OK") (list_ascii_of_string "ERR")
              (list_ascii_of_string "AT ERR") (list_ascii_of_string "OR OK")
              (Stream_on (list_ascii_of_string "AT ERROR OK")))
    as [_ H].
  - discriminate.
  - discriminate.
  - reflexivity.
  - apply occursb_false. reflexivity.
  - apply occursb_false. reflexivity.
  - apply H.
    + exists (list_ascii_of_string "AT "). reflexivity.
    + intros [u Hu].
      apply (f_equal (@rev ascii)) in Hu. rewrite rev_app_distr in Hu.
      discriminate.
Defined.

(** X13: the searches on empty strings, which [findMulti] settles before it
    reads: [find] on an empty target returns true, [findUntil] on an empty
    target returns true, and [findUntil] on a target that is not empty and an
    empty terminator returns false whatever the source holds; in each case
    the stream object is left exactly as it was. *)
Theorem find_empty_strings (target terminator : list ascii) (s : Stream) :
  find [] s = Some (true, s)
  /\ findUntil [] terminator s = Some (true, s)
  /\ (target <> [] -> findUntil target [] s = Some (false, s)).
Proof.
  split; [reflexivity|]. split; [reflexivity|].
  intros Ht. destruct target as [|a target]; [contradiction|]. reflexivity.
Qed.

Lemma find_empty_strings_witness :
  findUntil (list_ascii_of_string "OK") []
    (Stream_on (list_ascii_of_string "OK"))
  = Some (false, Stream_on (list_ascii_of_string "OK")).
Proof.
  apply (proj2 (proj2 (find_empty_strings (list_ascii_of_string "OK") []
                         (Stream_on (list_ascii_of_string "OK"))))).
  discriminate.
Defined.

(** The rounds of the search keep the invariant of every target. *)
Lemma feed_tracks : forall (bytes w : list ascii)
    (ts ts' : list MultiTarget),
  Forall (tracks w) ts -> feed ts bytes = (None, ts') ->
  map pattern ts' = map pattern ts /\ Forall (tracks (w ++ bytes)) ts'.
Proof.
  induction bytes as [|c bytes IH]; intros w ts ts' Hts Hfeed;
    cbn [feed] in Hfeed.
  - injection Hfeed as <-. rewrite app_nil_r. now split.
  - destruct (scan c ts 0) as [[j|] ts1] eqn:Es; [discriminate|].
    destruct (scan_spec w c ts 0 None ts1 Hts Es) as [Hmap [Hall _]].
    destruct (IH (w ++ [c]) ts1 ts' Hall Hfeed) as [Hmap' Hall'].
    split; [congruence|]. now rewrite <- app_assoc in Hall'.
Qed.

(** X14: the invariant of the search.  After the rounds on the bytes [w]
    have gone by without a hit, the index of each target is the length of the
    longest proper prefix of its pattern that ends [w]: that prefix ends
    [w], the index is below [len], and no longer proper prefix ends [w].
    The strings and lengths of the targets are unchanged. *)
Theorem feed_longest_prefix (targets targets' : list MultiTarget)
    (w : list ascii) :
  Forall fresh targets ->
  feed targets w = (None, targets') ->
  map str targets' = map str targets
  /\ map len targets' = map len targets
  /\ Forall (fun t =>
       (index t < len t)%nat
       /\ ends_with w (firstn (index t) (str t))
       /\ forall k, (index t < k < len t)%nat ->
            ~ ends_with w (firstn k (str t))) targets'.
Proof.
  intros Hfresh Hfeed.
  assert (Hkeep : forall (bytes : list ascii) (ts ts' : list MultiTarget),
            feed ts bytes = (None, ts') ->
            map str ts' = map str ts /\ map len ts' = map len ts).
  { induction bytes as [|c bytes IH]; intros ts ts' H; cbn [feed] in H.
    - injection H as <-. now split.
    - destruct (scan c ts 0) as [[j|] ts1] eqn:Es; [discriminate|].
      destruct (IH ts1 ts' H) as [H1 H2].
      assert (Hscan : forall (l : list MultiTarget) (i : Z) r l',
                scan c l i = (r, l') ->
                map str l' = map str l /\ map len l' = map len l).
      { induction l as [|t l IHl]; intros i r l' Hl; cbn [scan] in Hl.
        - injection Hl as _ <-. now split.
        - assert (Hadv : str (snd (advance c t)) = str t
                         /\ len (snd (advance c t)) = len t).
          { unfold advance. destruct (Ascii.eqb _ _); [now split|].
            destruct (Nat.eqb _ _); now split. }
          destruct (advance c t) as [hit t1]. cbn [snd] in Hadv.
          destruct Hadv as [Hs Hl1]. destruct hit.
          + injection Hl as _ <-. cbn [map]. now rewrite Hs, Hl1.
          + destruct (scan c l (i + 1)) as [r1 l1] eqn:El.
            injection Hl as _ <-. destruct (IHl _ _ _ El) as [H3 H4].
            cbn [map]. now rewrite Hs, Hl1, H3, H4. }
      destruct (Hscan ts 0 None ts1 Es) as [H3 H4]. split; congruence. }
  destruct (Hkeep w targets targets' Hfeed) as [Hstr Hlen].
  split; [exact Hstr|]. split; [exact Hlen|].
  destruct (feed_tracks w [] targets targets') as [_ Hall]; auto.
  { apply Forall_impl with (P := fresh); [apply fresh_tracks|exact Hfresh]. }
  cbn [app] in Hall. apply Forall_impl with (P := tracks w); [|exact Hall].
  intros t (Hwf & Hm & Hmax). split; [lia|]. split.
  - apply matched_ends_with; [lia|exact Hm].
  - intros k Hk H. apply (Hmax k Hk). apply matched_ends_with; [lia|exact H].
Qed.

Lemma feed_longest_prefix_witness :
  map str [mkMultiTarget (list_ascii_of_string "1112") 4 3]
  = map str [target_of (list_ascii_of_string "1112")]
  /\ map len [mkMultiTarget (list_ascii_of_string "1112") 4 3]
     = map len [target_of (list_ascii_of_string "1112")]
  /\ Forall (fun t =>
       (index t < len t)%nat
       /\ ends_with (list_ascii_of_string "11111")
                    (firstn (index t) (str t))
       /\ forall k, (index t < k < len t)%nat ->
            ~ ends_with (list_ascii_of_string "11111") (firstn k (str t)))
       [mkMultiTarget (list_ascii_of_string "1112") 4 3].
Proof.
  apply (feed_longest_prefix [target_of (list_ascii_of_string "1112")]
           [mkMultiTarget (list_ascii_of_string "1112") 4 3]
           (list_ascii_of_string "11111")).
  - repeat constructor; simpl; lia.
  - reflexivity.
Defined.

(** X15: a search followed by [readString], as in the test suite of the
    repository, on any target and any source: the pair returned is whether
    the first [length] bytes of the target occur in the source and the bytes
    that follow their first occurrence (none when there is no occurrence),
    and the source is left empty. *)
Theorem find_then_readString (target : list ascii) (n : nat) (s : Stream) :
  (0 < n <= length target)%nat ->
  exists s',
    then_readString (find_len target n) s
    = Some ((occursb (firstn n target) (rx s),
             after_first (firstn n target) (rx s)), s')
    /\ rx s' = [].
Proof.
  intros Hn. destruct (find_len_spec target n s Hn) as (s1 & E1 & R1).
  destruct (readString_spec s1) as (s2 & E2 & R2).
  exists s2. split; [|exact R2]. unfold then_readString.
  rewrite (bind_Some _ _ _ _ _ E1), (bind_Some _ _ _ _ _ E2), R1.
  reflexivity.
Qed.

Lemma find_then_readString_witness :
  exists s',
    then_readString (find_len (list_ascii_of_string "test") 3)
      (Stream_on (list_ascii_of_string "This is a test string"))
    = Some ((true, list_ascii_of_string "t string"), s')
    /\ rx s' = [].
Proof.
  apply (find_then_readString (list_ascii_of_string "test") 3
           (Stream_on (list_ascii_of_string "This is a test string"))).
  simpl. lia.
Defined.

(** * The deadline of the timed reads *)

Lemma timedRead_poll_wait (n : nat) : forall (s : Stream) (k : Z),
  rx s = [] ->
  1 <= k ->
  k <= Z.max 1 (ulong (_timeout s)) ->
  _startMillis s = ulong (clock s - k) ->
  Z.max 1 (ulong (_timeout s)) - k < Z.of_nat n ->
  exists s', timedRead_poll n s = Some (-1, s') /\ rx s' = []
             /\ clock s' = clock s + (Z.max 1 (ulong (_timeout s)) - k + 1)
             /\ _timeout s' = _timeout s.
Proof.
  induction n as [|n IH]; intros s k Hrx Hk Hmax Hstart Hn; [lia|].
  pose proof (ulong_range (_timeout s)) as Ht.
  cbn [timedRead_poll]. unfold bind at 1. unfold read at 1. rewrite Hrx.
  cbn [Z.leb Z.compare bind millis gets getTimeout].
  cbn [rx clock _timeout _startMillis].
  rewrite Hstart, ulong_sub.
  replace (clock s - (clock s - k)) with k by lia.
  rewrite (ulong_small k) by lia.
  destruct (k <? ulong (_timeout s)) eqn:E.
  - apply Z.ltb_lt in E.
    destruct (IH {| rx := rx s; clock := clock s + 1; _timeout := _timeout s;
                    _startMillis := ulong (clock s - k) |} (k + 1))
      as (s' & E' & R' & C' & T'); cbn [rx clock _timeout _startMillis];
      try lia; auto.
    { f_equal. lia. }
    exists s'. cbn [rx clock _timeout _startMillis] in C', T'.
    split; [exact E'|]. split; [exact R'|]. split; [lia|exact T'].
  - apply Z.ltb_ge in E. eexists. split; [reflexivity|].
    cbn [rx clock _timeout _startMillis]. split; [exact Hrx|]. split; [lia|].
    reflexivity.
Qed.

Lemma timedPeek_poll_wait (n : nat) : forall (s : Stream) (k : Z),
  rx s = [] ->
  1 <= k ->
  k <= Z.max 1 (ulong (_timeout s)) ->
  _startMillis s = ulong (clock s - k) ->
  Z.max 1 (ulong (_timeout s)) - k < Z.of_nat n ->
  exists s', timedPeek_poll n s = Some (-1, s') /\ rx s' = []
             /\ clock s' = clock s + (Z.max 1 (ulong (_timeout s)) - k + 1)
             /\ _timeout s' = _timeout s.
Proof.
  induction n as [|n IH]; intros s k Hrx Hk Hmax Hstart Hn; [lia|].
  pose proof (ulong_range (_timeout s)) as Ht.
  cbn [timedPeek_poll]. unfold bind at 1. unfold peek at 1. rewrite Hrx.
  cbn [Z.leb Z.compare bind millis gets getTimeout].
  cbn [rx clock _timeout _startMillis].
  rewrite Hstart, ulong_sub.
  replace (clock s - (clock s - k)) with k by lia.
  rewrite (ulong_small k) by lia.
  destruct (k <? ulong (_timeout s)) eqn:E.
  - apply Z.ltb_lt in E.
    destruct (IH {| rx := rx s; clock := clock s + 1; _timeout := _timeout s;
                    _startMillis := ulong (clock s - k) |} (k + 1))
      as (s' & E' & R' & C' & T'); cbn [rx clock _timeout _startMillis];
      try lia; auto.
    { f_equal. lia. }
    exists s'. cbn [rx clock _timeout _startMillis] in C', T'.
    split; [exact E'|]. split; [exact R'|]. split; [lia|exact T'].
  - apply Z.ltb_ge in E. eexists. split; [reflexivity|].
    cbn [rx clock _timeout _startMillis]. split; [exact Hrx|]. split; [lia|].
    reflexivity.
Qed.

(** X16: on an empty source [timedRead] and [timedPeek] give the timeout
    code once the clock has been read [max 1 timeout] times after the start
    was taken, and not before: the source is polled at least once, even with
    a timeout of zero, and the count is the same for every value of the
    millisecond counter, also when the counter wraps around during the wait.
    The timeout setting is left as it was. *)
Theorem timed_wait_lasts_timeout (s : Stream) :
  rx s = [] ->
  (exists s', timedRead s = Some (-1, s') /\ rx s' = []
              /\ clock s' = clock s + 1 + Z.max 1 (ulong (_timeout s))
              /\ _timeout s' = _timeout s)
  /\ (exists s', timedPeek s = Some (-1, s') /\ rx s' = []
                 /\ clock s' = clock s + 1 + Z.max 1 (ulong (_timeout s))
                 /\ _timeout s' = _timeout s).
Proof.
  intros Hrx. pose proof (ulong_range (_timeout s)) as Ht. split.
  - unfold timedRead, bind, millis, set_startMillis, gets, polls.
    cbn [rx clock _timeout _startMillis].
    destruct (timedRead_poll_wait (S (Z.to_nat (ulong (_timeout s))))
                {| rx := rx s; clock := clock s + 1; _timeout := _timeout s;
                   _startMillis := ulong (clock s) |} 1)
      as (s' & E & R & C & T); cbn [rx clock _timeout _startMillis];
      auto; try lia.
    { f_equal. lia. }
    exists s'. cbn [rx clock _timeout _startMillis] in C, T.
    split; [exact E|]. split; [exact R|]. split; [lia|exact T].
  - unfold timedPeek, bind, millis, set_startMillis, gets, polls.
    cbn [rx clock _timeout _startMillis].
    destruct (timedPeek_poll_wait (S (Z.to_nat (ulong (_timeout s))))
                {| rx := rx s; clock := clock s + 1; _timeout := _timeout s;
                   _startMillis := ulong (clock s) |} 1)
      as (s' & E & R & C & T); cbn [rx clock _timeout _startMillis];
      auto; try lia.
    { f_equal. lia. }
    exists s'. cbn [rx clock _timeout _startMillis] in C, T.
    split; [exact E|]. split; [exact R|]. split; [lia|exact T].
Qed.

Lemma timed_wait_lasts_timeout_witness :
  exists s',
    timedRead {| rx := []; clock := 2 ^ 32 - 3; _timeout := 10;
                 _startMillis := 0 |} = Some (-1, s')
    /\ rx s' = []
    /\ clock s' = 2 ^ 32 - 3 + 1 + Z.max 1 (ulong 10)
    /\ _timeout s' = 10.
Proof.
  apply (proj1 (timed_wait_lasts_timeout
                  {| rx := []; clock := 2 ^ 32 - 3; _timeout := 10;
                     _startMillis := 0 |} eq_refl)).
Defined.

(** * parseFloat on any source *)

(** The accumulator after the first byte of a token. *)
Lemma parseFloat_step_first (ignore : ascii) (c0 : ascii) :
  numeric_start true c0 = true ->
  parseFloat_step ignore (int_of_char c0) FloatAcc0
  = if Ascii.eqb c0 "."%char && negb (Ascii.eqb c0 ignore)
    then mkFloatAcc false true (double_of_int 0) (double_of_int 1)
    else mkFloatAcc (negative_start ignore c0) false
           (double_int_part (double_of_int 0) (filter (counted ignore) [c0]))
           (double_of_int 1).
Proof.
  intros Hstart. unfold parseFloat_step, negative_start, counted.
  rewrite is_ignore_char. cbn [filter].
  destruct (Ascii.eqb c0 ignore) eqn:Eig.
  - rewrite !andb_false_r. reflexivity.
  - rewrite !andb_true_r.
    destruct (int_of_char c0 =? ch "-") eqn:Em.
    + apply Z.eqb_eq in Em. apply int_of_char_inj in Em. subst c0. reflexivity.
    + assert (Hne : Ascii.eqb c0 "-"%char = false).
      { apply Ascii.eqb_neq. intros ->. discriminate. }
      rewrite Hne.
      destruct (int_of_char c0 =? ch ".") eqn:Ep.
      * apply Z.eqb_eq in Ep. apply int_of_char_inj in Ep. subst c0.
        reflexivity.
      * assert (Hnp : Ascii.eqb c0 "."%char = false).
        { apply Ascii.eqb_neq. intros ->. discriminate. }
        rewrite Hnp. unfold numeric_start in Hstart.
        rewrite Em, Ep, andb_false_r, orb_false_r in Hstart.
        cbn [orb] in Hstart. unfold digit_char. rewrite Hstart. reflexivity.
Qed.

Lemma double_int_part_cons (ignore : ascii) (c0 : ascii) (l : list ascii) :
  double_int_part
    (double_int_part (double_of_int 0) (filter (counted ignore) [c0]))
    (filter (counted ignore) l)
  = double_int_part (double_of_int 0) (filter (counted ignore) (c0 :: l)).
Proof.
  change (c0 :: l) with ([c0] ++ l). rewrite filter_app.
  unfold double_int_part. now rewrite fold_left_app.
Qed.

(** What ends a run of digits and ignore characters ends the token once the
    decimal point has been seen. *)
Lemma float_stop_after_point (ignore : ascii) (a : FloatAcc) (l : list ascii) :
  Ascii.eqb "255"%char ignore = false -> isFraction a = true ->
  float_stop ignore a (drop_while (int_more ignore) l) = true.
Proof.
  intros Hig Hfr.
  destruct (drop_while (int_more ignore) l) as [|d tail] eqn:Htail;
    cbn [float_stop].
  - now rewrite Hig.
  - apply drop_while_head in Htail. unfold int_more, digit_char in Htail.
    apply orb_false_iff in Htail as [Hd1 Hd2].
    unfold parseFloat_more. rewrite is_ignore_char, Hd1, Hd2, Hfr.
    now rewrite andb_false_r.
Qed.

(** [parseFloat] as a function of the bytes that the source holds. *)
Lemma parseFloat_spec (la : LookaheadMode) (ignore : ascii) (s : Stream) :
  Ascii.eqb "255"%char ignore = false ->
  exists s',
    parseFloat la ignore s = Some (fst (parseFloat_bytes la ignore (rx s)), s')
    /\ rx s' = snd (parseFloat_bytes la ignore (rx s)).
Proof.
  intros Hig. unfold parseFloat_bytes.
  pose proof (take_drop_while (skippable la true) (rx s)) as Hsplit.
  pose proof (take_while_all (skippable la true) (rx s)) as Hall.
  destruct (peekNextDigit_spec la true s) as (s1 & E1 & R1).
  destruct (drop_while (skippable la true) (rx s)) as [|c0 l2] eqn:Hrest.
  { exists s1. split; [|exact R1]. unfold parseFloat.
    now rewrite (bind_Some _ _ _ _ _ E1). }
  destruct (numeric_start true c0) eqn:Hn.
  2:{ exists s1. split; [|exact R1]. unfold parseFloat.
      now rewrite (bind_Some _ _ _ _ _ E1). }
  pose proof (parseFloat_step_first ignore c0 Hn) as Hfirst.
  pose proof (take_drop_while (int_more ignore) l2) as Hsplit2.
  pose proof (take_while_all (int_more ignore) l2) as HA.
  destruct (Ascii.eqb c0 "."%char && negb (Ascii.eqb c0 ignore)) eqn:Hpoint.
  - (* the token opens with its decimal point *)
    cbn [fst snd]. rewrite Hsplit2 in Hsplit at 1.
    pose proof (float_acc_frac_run ignore _ O
                  (mkFloatAcc false true (double_of_int 0) (double_of_int 1))
                  HA eq_refl eq_refl) as Hacc.
    cbn [isNegative value Nat.add] in Hacc.
    destruct (parseFloat_token la ignore _ c0 _ _ s Hsplit Hall Hn)
      as (s' & E & R).
    + rewrite Hfirst. now apply float_run_int_more.
    + rewrite float_acc_cons, Hfirst, Hacc.
      now apply float_stop_after_point.
    + rewrite float_acc_cons, Hfirst, Hacc in E. cbn [isNegative value] in E.
      exists s'. split; [exact E|exact R].
  - (* the token opens with a sign, a digit or an ignored byte *)
    pose proof (float_acc_int_run ignore _
                  (mkFloatAcc (negative_start ignore c0) false
                     (double_int_part (double_of_int 0)
                        (filter (counted ignore) [c0]))
                     (double_of_int 1)) HA eq_refl) as Hacc.
    cbn [isNegative value fraction] in Hacc.
    rewrite double_int_part_cons in Hacc.
    destruct (drop_while (int_more ignore) l2) as [|p l3] eqn:Hrest1.
    + cbn [fst snd]. rewrite Hsplit2 in Hsplit at 1.
      destruct (parseFloat_token la ignore _ c0 _ _ s Hsplit Hall Hn)
        as (s' & E & R).
      * rewrite Hfirst. now apply float_run_int_more.
      * cbn [float_stop]. now rewrite Hig.
      * rewrite float_acc_cons, Hfirst, Hacc in E. cbn [isNegative value] in E.
        exists s'. split; [exact E|exact R].
    + pose proof (drop_while_head _ _ _ _ Hrest1) as Hp.
      unfold int_more, digit_char in Hp.
      apply orb_false_iff in Hp as [Hp1 Hp2].
      destruct (Ascii.eqb p "."%char) eqn:Epoint.
      * (* a decimal point follows the digits *)
        apply Ascii.eqb_eq in Epoint. subst p. cbn [fst snd].
        pose proof (take_drop_while (int_more ignore) l3) as Hsplit3.
        pose proof (take_while_all (int_more ignore) l3) as HB.
        destruct (float_acc_pointed ignore _ _
                    (mkFloatAcc (negative_start ignore c0) false
                       (double_int_part (double_of_int 0)
                          (filter (counted ignore) [c0]))
                       (double_of_int 1)) HA HB Hp2 eq_refl eq_refl)
          as [Hacc2 Hrun2].
        cbn [isNegative value] in Hacc2.
        rewrite double_int_part_cons in Hacc2.
        assert (Hrx : rx s
                      = take_while (skippable la true) (rx s)
                        ++ c0 :: (take_while (int_more ignore) l2
                                  ++ "."%char :: take_while (int_more ignore) l3)
                           ++ drop_while (int_more ignore) l3).
        { rewrite Hsplit at 1. f_equal. f_equal. rewrite Hsplit2 at 1.
          rewrite <- app_assoc. f_equal. cbn [app]. f_equal. exact Hsplit3. }
        destruct (parseFloat_token la ignore _ c0 _ _ s Hrx Hall Hn)
          as (s' & E & R).
        -- now rewrite Hfirst.
        -- rewrite float_acc_cons, Hfirst, Hacc2.
           now apply float_stop_after_point.
        -- rewrite float_acc_cons, Hfirst, Hacc2 in E.
           cbn [isNegative value] in E.
           exists s'. split; [exact E|exact R].
      * (* the byte after the digits ends the token *)
        cbn [fst snd]. rewrite Hsplit2 in Hsplit at 1.
        destruct (parseFloat_token la ignore _ c0 _ _ s Hsplit Hall Hn)
          as (s' & E & R).
        -- rewrite Hfirst. now apply float_run_int_more.
        -- rewrite float_acc_cons, Hfirst, Hacc. cbn [float_stop].
           unfold parseFloat_more. rewrite is_ignore_char, Hp1, Hp2.
           assert (Hp : (int_of_char p =? ch ".") = false).
           { apply Z.eqb_neq. intros H. apply int_of_char_inj in H. subst p.
             discriminate. }
           now rewrite Hp.
        -- rewrite float_acc_cons, Hfirst, Hacc in E.
           cbn [isNegative value] in E.
           exists s'. split; [exact E|exact R].
Qed.

(** X17: [parseFloat] on any source, for an ignore character other than the
    byte 255: it returns, and both the value and the bytes left unread are
    those of [parseFloat_bytes].  The lookahead's discards are consumed even
    when no number follows; a byte that cannot start a number is left unread
    and the value is zero; a token runs over digits, ignore characters and
    one decimal point, and the byte that ends it is left unread; the value is
    that of the counted digits before and after the point, negated for a
    leading sign. *)
Theorem parseFloat_any_source (la : LookaheadMode) (ignore : ascii)
    (s : Stream) :
  Ascii.eqb "255"%char ignore = false ->
  exists s',
    parseFloat la ignore s = Some (fst (parseFloat_bytes la ignore (rx s)), s')
    /\ rx s' = snd (parseFloat_bytes la ignore (rx s)).
Proof. apply parseFloat_spec. Qed.

Lemma parseFloat_any_source_witness :
  exists s',
    parseFloat SKIP_ALL ","%char
      (Stream_on (list_ascii_of_string "v=-1,0.2,5.2"))
    = Some (SFopp (float_literal 41 4), s')
    /\ rx s' = list_ascii_of_string ".2".
Proof.
  apply (parseFloat_any_source SKIP_ALL ","%char
           (Stream_on (list_ascii_of_string "v=-1,0.2,5.2"))).
  reflexivity.
Defined.
